(** * ColoSwitch: dominant-colour extraction, colour-code parsing and
      tolerance-based colour replacement ([app.py]).

    A shallow embedding of the three core functions of [app.py]:
    [get_colors], [parse_color_code] and [replace_color_with_tolerance],
    and of the two handlers that call them, [process] and
    [extract_and_return_choices].

    Modelling conventions.
    - A Python [str] is a Rocq [string]; each character stands for one code
      point below 256, so [String.length] is Python's [len].
    - A Python [int] is a [Z]; a [uint8] array element is a [Z] in [0, 255]
      (see [uint8_image]).
    - An RGBA image, as [np.array(image.convert("RGBA"))] yields it, is a list
      of rows of pixels (shape [(H, W, 4)]).
    - The float64 distance of [replace_color_with_tolerance] is computed with
      the kernel's binary64 numbers ([PrimFloat]).
    - Exceptions are values of [exn]; a function that may raise returns a
      [result]. *)

From Stdlib Require Import Reals.
From Stdlib Require Import ZArith List String Ascii Bool Lia.
From Stdlib Require Import Permutation Sorted.
From Stdlib Require Floats.PrimFloat Numbers.Cyclic.Int63.Uint63.
Import ListNotations.

Local Open Scope string_scope.
Local Open Scope Z_scope.

(* ================================================================== *)
(** * Exceptions *)
(* ================================================================== *)

Inductive exn : Type :=
| ValueError (msg : string)
| TypeError
| OverflowError.

Inductive result (A : Type) : Type :=
| Ok (a : A)
| Raise (e : exn).

Arguments Ok {A} a.
Arguments Raise {A} e.

Definition bind {A B : Type} (r : result A) (k : A -> result B) : result B :=
  match r with
  | Ok a => k a
  | Raise e => Raise e
  end.

Notation "x <- r ;; k" := (bind r (fun x => k))
  (at level 61, r at next level, right associativity).

(* ================================================================== *)
(** * Strings, characters and number formatting *)
(* ================================================================== *)

Definition code (c : ascii) : Z := Z.of_N (N_of_ascii c).

Definition in_range (lo hi : Z) (c : ascii) : bool :=
  (lo <=? code c) && (code c <=? hi).

(** [\d] of the [re] module on code points below 256: the ten ASCII digits. *)
Definition is_digit (c : ascii) : bool := in_range 48 57 c.

(** [\s] of the [re] module on code points below 256:
    TAB, LF, VT, FF, CR, FS, GS, RS, US, SPACE, NEL and NBSP. *)
Definition is_space (c : ascii) : bool :=
  in_range 9 13 c || in_range 28 32 c || (code c =? 133) || (code c =? 160).

(** The white space that [int(s, 16)] strips: as [\s] without FS, GS, RS, US. *)
Definition is_int_space (c : ascii) : bool :=
  in_range 9 13 c || (code c =? 32) || (code c =? 133) || (code c =? 160).

Definition is_lower_hex (c : ascii) : bool :=
  in_range 48 57 c || in_range 97 102 c.

(** The longest prefix of [s] whose characters satisfy [p], and the rest. *)
Fixpoint span (p : ascii -> bool) (s : string) : string * string :=
  match s with
  | String c r =>
      if p c then let (a, b) := span p r in (String c a, b) else (EmptyString, s)
  | EmptyString => (EmptyString, EmptyString)
  end.

Fixpoint all_chars (p : ascii -> bool) (s : string) : bool :=
  match s with
  | String c r => p c && all_chars p r
  | EmptyString => true
  end.

Definition lstrip (p : ascii -> bool) (s : string) : string := snd (span p s).

(** [s] is empty or its first character is outside [p]. *)
Definition stops (p : ascii -> bool) (s : string) : Prop :=
  match s with
  | String c _ => p c = false
  | EmptyString => True
  end.

(** [s[i:j]] for [0 <= i <= j]. *)
Definition slice (s : string) (i j : nat) : string := substring i (j - i) s.

(** [s.startswith("#")]. *)
Definition startswith_hash (s : string) : bool :=
  match s with
  | String c _ => Ascii.eqb c "#"
  | EmptyString => false
  end.

Definition hex_char (d : Z) : ascii :=
  ascii_of_N (Z.to_N (if d <? 10 then 48 + d else 87 + d)).

(** The lowercase hexadecimal digits of a positive number, most significant
    first, in front of [acc]. *)
Fixpoint hex_of_pos (fuel : nat) (n : Z) (acc : string) : string :=
  match fuel with
  | O => acc
  | S k =>
      let acc' := String (hex_char (n mod 16)) acc in
      if n <? 16 then acc' else hex_of_pos k (n / 16) acc'
  end.

(** [format(n, "x")] for [n >= 0]. *)
Definition hex_of_nat (n : Z) : string :=
  hex_of_pos (S (Z.to_nat (Z.log2 n))) n EmptyString.

(** [f"{n:02x}"]: lowercase hexadecimal, zero-padded to a width of at least
    two, the sign counted in the width. *)
Definition format_02x (n : Z) : string :=
  if n <? 0 then String "-" (hex_of_nat (- n))
  else if n <? 16 then String "0" (hex_of_nat n)
  else hex_of_nat n.

(** [f"#{r:02x}{g:02x}{b:02x}"]. *)
Definition format_hex (r g b : Z) : string :=
  "#" ++ format_02x r ++ format_02x g ++ format_02x b.

(** The characters [repr] treats apart. *)
Definition backslash : ascii := ascii_of_N 92.
Definition double_quote : ascii := ascii_of_N 34.
Definition single_quote : ascii := ascii_of_N 39.

Definition contains (c : ascii) (s : string) : bool :=
  negb (all_chars (fun x => negb (Ascii.eqb x c)) s).

(** [repr] of one character between the quotes [q]: the quote and the
    backslash are escaped, TAB, LF and CR are written with their letter, the
    other characters that do not print (controls, DEL, 128 to 160 and the
    soft hyphen) as [\x] and two digits. *)
Definition repr_char (q c : ascii) : string :=
  let n := code c in
  if Ascii.eqb c q || (n =? 92) then String backslash (String c "")
  else if n =? 9 then String backslash "t"
  else if n =? 10 then String backslash "n"
  else if n =? 13 then String backslash "r"
  else if (n <? 32) || ((127 <=? n) && (n <=? 160)) || (n =? 173) then
    String backslash
      (String "x" (String (hex_char (n / 16)) (String (hex_char (n mod 16)) "")))
  else String c "".

Fixpoint repr_chars (q : ascii) (s : string) : string :=
  match s with
  | String c r => repr_char q c ++ repr_chars q r
  | EmptyString => EmptyString
  end.

(** [repr(s)]: single quotes, or double quotes when [s] has a single quote
    and no double quote. *)
Definition py_repr (s : string) : string :=
  let q :=
    if contains single_quote s && negb (contains double_quote s)
    then double_quote else single_quote in
  String q (repr_chars q s ++ String q "").

(** The value of a hexadecimal digit, either case. *)
Definition hex_val (c : ascii) : option Z :=
  if in_range 48 57 c then Some (code c - 48)
  else if in_range 97 102 c then Some (code c - 87)
  else if in_range 65 70 c then Some (code c - 55)
  else None.

(** The digits of [int(s, 16)] after the first one: hexadecimal digits, single
    underscores between two digits, then white space up to the end. *)
Fixpoint int16_digits (acc : Z) (s : string) : option Z :=
  match s with
  | EmptyString => Some acc
  | String c r =>
      match hex_val c with
      | Some d => int16_digits (16 * acc + d) r
      | None =>
          if (code c =? 95) then
            match r with
            | String c2 r2 =>
                match hex_val c2 with
                | Some d => int16_digits (16 * acc + d) r2
                | None => None
                end
            | EmptyString => None
            end
          else if all_chars is_int_space s then Some acc else None
      end
  end.

(** An optional [0x] or [0X], with one underscore allowed after it. *)
Definition skip_0x (s : string) : string :=
  match s with
  | String "0" (String "x" (String "_" r)) => r
  | String "0" (String "X" (String "_" r)) => r
  | String "0" (String "x" r) => r
  | String "0" (String "X" r) => r
  | _ => s
  end.

Definition int16_unsigned (s : string) : option Z :=
  match skip_0x s with
  | String c r =>
      match hex_val c with
      | Some d => int16_digits d r
      | None => None
      end
  | EmptyString => None
  end.

(** [int(s, 16)]: white space, an optional sign, an optional [0x], digits. *)
Definition int16 (s : string) : result Z :=
  let body := lstrip is_int_space s in
  let v :=
    match body with
    | String "+" r => int16_unsigned r
    | String "-" r => option_map Z.opp (int16_unsigned r)
    | _ => int16_unsigned body
    end in
  match v with
  | Some n => Ok n
  | None =>
      Raise (ValueError ("invalid literal for int() with base 16: " ++ py_repr s))
  end.

(* ================================================================== *)
(** * [float(x)] and [int(f)] on the groups of the colour pattern *)
(* ================================================================== *)

(** A non-negative binary64 value: [m * 2^e], or infinity. *)
Inductive pyfloat : Type :=
| Finite (m e : Z)
| Infinity.

Fixpoint digits_value (acc : Z) (s : string) : Z :=
  match s with
  | String c r => digits_value (10 * acc + (code c - 48)) r
  | EmptyString => acc
  end.

(** [num / den] rounded to the nearest integer, ties to even ([den > 0]). *)
Definition round_half_even (num den : Z) : Z :=
  let q := num / den in
  let r := num mod den in
  if 2 * r <? den then q
  else if den <? 2 * r then q + 1
  else if Z.even q then q else q + 1.

(** [2^l <= n / d], for [n, d > 0]. *)
Definition pow2_le_ratio (l n d : Z) : bool :=
  if 0 <=? l then d * 2 ^ l <=? n else d <=? n * 2 ^ (- l).

(** The binary64 number nearest to [n / d] ([n >= 0], [d > 0]): 53 bits of
    mantissa, exponents from [-1074], ties to even, infinity from [2^1024]. *)
Definition float_of_ratio (n d : Z) : pyfloat :=
  if n =? 0 then Finite 0 0
  else
    let l := Z.log2 n - Z.log2 d in
    let fl := if pow2_le_ratio l n d then l else l - 1 in
    let e := Z.max (fl - 52) (-1074) in
    let m :=
      if 0 <=? e then round_half_even n (d * 2 ^ e)
      else round_half_even (n * 2 ^ (- e)) d in
    if (971 <? e) || ((e =? 971) && (m =? 2 ^ 53)) then Infinity
    else Finite m e.

(** [float(x)] for [x] made of digits, an optional point and digits (the
    pattern's [\d+\.?\d* ]), which is what the groups of
    the colour pattern hold; other strings are outside this model of [float]
    and are given [ValueError]. *)
Definition py_float (x : string) : result pyfloat :=
  let (ip, r) := span is_digit x in
  match ip, r with
  | String _ _, EmptyString => Ok (float_of_ratio (digits_value 0 ip) 1)
  | String _ _, String c fp =>
      if Ascii.eqb c "." && all_chars is_digit fp
      then Ok (float_of_ratio (digits_value 0 (ip ++ fp))
                              (10 ^ Z.of_nat (String.length fp)))
      else Raise (ValueError ("could not convert string to float: " ++ py_repr x))
  | EmptyString, _ =>
      Raise (ValueError ("could not convert string to float: " ++ py_repr x))
  end.

(** [int(f)] for a non-negative float: truncation; infinity raises. *)
Definition py_int (f : pyfloat) : result Z :=
  match f with
  | Finite m e => Ok (if 0 <=? e then m * 2 ^ e else m / 2 ^ (- e))
  | Infinity => Raise OverflowError
  end.

(** [lambda x: int(float(x))]. *)
Definition int_float (x : string) : result Z :=
  f <- py_float x ;; py_int f.

(** The value of a finite float, [m * 2^e], as a real number. *)
Definition float_value (m e : Z) : R :=
  if 0 <=? e then IZR (m * 2 ^ e) else (IZR m / IZR (2 ^ (- e)))%R.

(** [r] is the float [f] with its fraction cut off: [r <= f < r + 1]. *)
Definition truncation_of (f : pyfloat) (r : Z) : Prop :=
  match f with
  | Finite m e => (IZR r <= float_value m e < IZR r + 1)%R
  | Infinity => False
  end.

(* ================================================================== *)
(** * [parse_color_code] *)
(* ================================================================== *)

Definition obind {A B : Type} (o : option A) (k : A -> option B) : option B :=
  match o with
  | Some a => k a
  | None => None
  end.

Notation "x <-? o ;; k" := (obind o (fun x => k))
  (at level 61, o at next level, right associativity).

(** One literal character of a pattern. *)
Definition expect (c : ascii) (s : string) : option string :=
  match s with
  | String c' r => if Ascii.eqb c c' then Some r else None
  | EmptyString => None
  end.

(** [a?]: greedy; nothing is lost by not backtracking, since the literal
    that follows in the pattern is not [a]. *)
Definition optional (c : ascii) (s : string) : string :=
  match s with
  | String c' r => if Ascii.eqb c c' then r else s
  | EmptyString => s
  end.

(** A group of the pattern, [\d+\.?\d* ] in parentheses: at least one digit,
    an optional point, digits. Returns the group's text and the rest. Greedy
    matching is the only way for the pattern to go on, since what follows a
    group in the pattern is a comma or the end of the pattern. *)
Definition scan_number (s : string) : option (string * string) :=
  let (ip, r) := span is_digit s in
  match ip with
  | EmptyString => None
  | String _ _ =>
      match r with
      | String c r' =>
          if Ascii.eqb c "." then
            let (fp, r'') := span is_digit r' in
            Some (ip ++ String "." fp, r'')
          else Some (ip, r)
      | EmptyString => Some (ip, r)
      end
  end.

(** [re.match(pattern, s)] for the pattern of [parse_color_code], which is
    [rgba?\(] G [,\s* ] G [,\s* ] G with G the group above: the three groups
    when the pattern matches a prefix of [s]. *)
Definition re_match_rgb (s : string) : option (string * string * string) :=
  s1 <-? expect "r" s ;;
  s2 <-? expect "g" s1 ;;
  s3 <-? expect "b" s2 ;;
  s4 <-? expect "(" (optional "a" s3) ;;
  n1 <-? scan_number s4 ;;
  s5 <-? expect "," (snd n1) ;;
  n2 <-? scan_number (lstrip is_space s5) ;;
  s6 <-? expect "," (snd n2) ;;
  n3 <-? scan_number (lstrip is_space s6) ;;
  Some (fst n1, fst n2, fst n3).

(** The argument of [parse_color_code]: a [str], or [None] (what an empty
    dropdown hands over). *)
Inductive pyobj : Type :=
| Str (s : string)
| NoneObj.

(** The fixed text of the error message, in its UTF-8 encoding. *)
Definition invalid_color_prefix : string := "不正なカラーコード: ".

Definition parse_color_code (color : pyobj) : result string :=
  match color with
  | NoneObj => Raise TypeError
  | Str s =>
      if startswith_hash s && (String.length s =? 7)%nat then Ok s
      else
        match re_match_rgb s with
        | Some (x1, x2, x3) =>
            r <- int_float x1 ;;
            g <- int_float x2 ;;
            b <- int_float x3 ;;
            Ok (format_hex r g b)
        | None => Raise (ValueError (invalid_color_prefix ++ s))
        end
  end.

(* ================================================================== *)
(** * Images as arrays *)
(* ================================================================== *)

Record pixel : Type := Pixel { red : Z; green : Z; blue : Z; alpha : Z }.

Definition rgb : Type := (Z * Z * Z)%type.

(** [np.array(image)] for an RGBA image: rows of pixels. *)
Definition Image : Type := list (list pixel).

Definition uint8 (v : Z) : bool := (0 <=? v) && (v <=? 255).

Definition uint8_pixel (p : pixel) : bool :=
  uint8 (red p) && uint8 (green p) && uint8 (blue p) && uint8 (alpha p).

(** Every channel of every pixel is an unsigned byte. *)
Definition uint8_image (arr : Image) : bool :=
  forallb (forallb uint8_pixel) arr.

Definition pixel_rgb (p : pixel) : rgb := (red p, green p, blue p).

(** The pixel of row [i] and column [j]. *)
Definition pixel_at (arr : Image) (i j : nat) : option pixel :=
  match nth_error arr i with
  | Some row => nth_error row j
  | None => None
  end.

(** Elementwise operations on arrays of the same shape. *)
Fixpoint zip_with {A B C : Type} (f : A -> B -> C) (l : list A) (m : list B)
  : list C :=
  match l, m with
  | a :: l', b :: m' => f a b :: zip_with f l' m'
  | _, _ => []
  end.

Definition grid_map {A B : Type} (f : A -> B) (g : list (list A))
  : list (list B) :=
  map (map f) g.

Definition grid_zip_with {A B C : Type} (f : A -> B -> C)
  (g : list (list A)) (h : list (list B)) : list (list C) :=
  zip_with (zip_with f) g h.

(** [arr[:, :, :3]] and [arr[:, :, 3]]. *)
Definition rgb_channels (arr : Image) : list (list rgb) := grid_map pixel_rgb arr.
Definition alpha_channel (arr : Image) : list (list Z) := grid_map alpha arr.

(** [a[mask]]: the elements where the mask holds, in row-major order. *)
Definition boolean_index {A : Type} (a : list (list A)) (mask : list (list bool))
  : list A :=
  List.concat (zip_with (fun row mrow =>
            List.concat (zip_with (fun x (m : bool) => if m then [x] else []) row mrow))
          a mask).

(* ================================================================== *)
(** * [replace_color_with_tolerance] *)
(* ================================================================== *)

(** An [int64] below [2^53] as a float64, exactly. *)
Definition float_of_int (z : Z) : PrimFloat.float := PrimFloat.of_uint63 (Uint63.of_Z z).

(** [[int(color[i:i+2], 16) for i in (1, 3, 5)]]. *)
Definition hex_channels (color : string) : result rgb :=
  r <- int16 (slice color 1 3) ;;
  g <- int16 (slice color 3 5) ;;
  b <- int16 (slice color 5 7) ;;
  Ok (r, g, b).

(** [rgb - np.array([r1, g1, b1])], in [int64]. *)
Definition np_sub (c : rgb) (c1 : rgb) : rgb :=
  let '(r, g, b) := c in
  let '(r1, g1, b1) := c1 in
  (r - r1, g - g1, b - b1).

(** [np.sum(diff ** 2, axis=2)] at one pixel. *)
Definition sum_squares (d : rgb) : Z :=
  let '(dr, dg, db) := d in dr ^ 2 + dg ^ 2 + db ^ 2.

(** Storing a Python [int] into a [uint8] array: out of range raises. *)
Definition to_uint8 (v : Z) : result Z :=
  if uint8 v then Ok v else Raise OverflowError.

Definition set_channel (k : nat) (v : Z) (p : pixel) : pixel :=
  match k with
  | 0%nat => Pixel v (green p) (blue p) (alpha p)
  | 1%nat => Pixel (red p) v (blue p) (alpha p)
  | 2%nat => Pixel (red p) (green p) v (alpha p)
  | _ => Pixel (red p) (green p) (blue p) v
  end.

(** [arr[mask, k] = v]. *)
Definition assign_channel (mask : list (list bool)) (k : nat) (v : Z)
  (arr : Image) : result Image :=
  b <- to_uint8 v ;;
  Ok (grid_zip_with (fun (m : bool) p => if m then set_channel k b p else p)
        mask arr).

Definition replace_color_with_tolerance (image : Image)
  (color_from color_to : string) (tolerance : PrimFloat.float) : result Image :=
  let arr := image in
  c1 <- hex_channels color_from ;;
  c2 <- hex_channels color_to ;;
  let '(r2, g2, b2) := c2 in
  let rgb := rgb_channels arr in
  let alpha := alpha_channel arr in
  let diff := grid_map (fun c => np_sub c c1) rgb in
  let distance :=
    grid_map (fun d => PrimFloat.sqrt (float_of_int (sum_squares d))) diff in
  let mask :=
    grid_zip_with (fun d a => PrimFloat.leb d tolerance && (0 <? a))
      distance alpha in
  arr <- assign_channel mask 0 r2 arr ;;
  arr <- assign_channel mask 1 g2 arr ;;
  arr <- assign_channel mask 2 b2 arr ;;
  Ok arr.

(* ================================================================== *)
(** * [get_colors] *)
(* ================================================================== *)

(** Rows of a [uint8] array compared column by column. *)
Definition rgb_compare (c d : rgb) : comparison :=
  let '(r, g, b) := c in
  let '(r', g', b') := d in
  match r ?= r' with
  | Eq => match g ?= g' with
          | Eq => b ?= b'
          | o => o
          end
  | o => o
  end.

(** One more occurrence of [c] in a table of rows and counts kept in
    increasing order of the rows. *)
Fixpoint count_insert (c : rgb) (t : list (rgb * Z)) : list (rgb * Z) :=
  match t with
  | [] => [(c, 1)]
  | (d, n) :: t' =>
      match rgb_compare c d with
      | Lt => (c, 1) :: t
      | Eq => (d, n + 1) :: t'
      | Gt => (d, n) :: count_insert c t'
      end
  end.

(** [np.unique(rows, axis=0, return_counts=True)]: the distinct rows in
    increasing order, and how often each occurs. *)
Definition np_unique (rows : list rgb) : list rgb * list Z :=
  split (fold_right count_insert [] rows).

(** [l[-n:]]. *)
Definition last_n {A : Type} (n : nat) (l : list A) : list A :=
  skipn (List.length l - n) l.

(** [unique[top_indices]]. *)
Definition take_rows (unique : list rgb) (indices : list nat) : list rgb :=
  map (fun i => nth i unique (0, 0, 0)) indices.

(** The colours that [get_colors] formats, as rows: [top_colors]. The array
    given is the resized one. *)
Definition top_colors (argsort : list Z -> list nat) (arr : Image) : list rgb :=
  let rgb := rgb_channels arr in
  let alpha := alpha_channel arr in
  let mask := grid_map (fun a => 0 <? a) alpha in
  let rgb_filtered := boolean_index rgb mask in
  if (List.length rgb_filtered =? 0)%nat then []
  else
    let (unique, counts) := np_unique rgb_filtered in
    let top_indices := rev (last_n 10 (argsort counts)) in
    take_rows unique top_indices.

(** [get_colors]. Two library functions are parameters:
    [resize] is [image.convert("RGBA").resize((100, 100))] of PIL, and
    [argsort] is [ndarray.argsort] of NumPy, whose order among equal counts
    is not fixed by its default sorting method. *)
Definition get_colors (resize : Image -> Image) (argsort : list Z -> list nat)
  (image : Image) : list string :=
  let arr := resize image in
  map (fun c : rgb => let '(r, g, b) := c in format_hex r g b)
      (top_colors argsort arr).

(** What [get_colors] relies on from [argsort]: a permutation of the indices
    along which the values never decrease. *)
Definition argsort_spec (argsort : list Z -> list nat) : Prop :=
  forall l : list Z,
    Permutation (argsort l) (seq 0 (List.length l)) /\
    StronglySorted (fun i j => nth i l 0 <= nth j l 0) (argsort l).

(** A stable [argsort] by insertion, for running [get_colors]. *)
Fixpoint insert_index (l : list Z) (i : nat) (sorted : list nat) : list nat :=
  match sorted with
  | [] => [i]
  | j :: rest =>
      if nth i l 0 <? nth j l 0 then i :: sorted
      else j :: insert_index l i rest
  end.

Definition stable_argsort (l : list Z) : list nat :=
  fold_left (fun acc i => insert_index l i acc) (seq 0 (List.length l)) [].

(* ================================================================== *)
(** * Notions the properties are stated with *)
(* ================================================================== *)

(** A canonical colour: [#] and six lowercase hexadecimal digits. *)
Definition is_canonical (s : string) : bool :=
  match s with
  | String c r =>
      Ascii.eqb c "#" && (String.length r =? 6)%nat && all_chars is_lower_hex r
  | EmptyString => false
  end.

(** The first accepted grammar: seven characters, the first one [#]. *)
Definition is_hash7 (s : string) : Prop :=
  String.length s = 7%nat /\ exists r, s = String "#" r.

(** The strings a group of the pattern matches: digits, at least one, then
    possibly a point and digits. *)
Definition is_number (x : string) : Prop :=
  exists ip fp,
    ip <> EmptyString /\
    all_chars is_digit ip = true /\ all_chars is_digit fp = true /\
    (x = ip \/ x = ip ++ String "." fp).

(** The strings a prefix of which the colour pattern matches, with the text of
    the three groups; the third group is the longest number there. *)
Definition rgb_functional (s x1 x2 x3 : string) : Prop :=
  exists a w1 w2 rest,
    (a = "" \/ a = "a") /\
    is_number x1 /\ is_number x2 /\ is_number x3 /\
    all_chars is_space w1 = true /\ all_chars is_space w2 = true /\
    scan_number (x3 ++ rest) = Some (x3, rest) /\
    s = "rgb" ++ a ++ "(" ++ x1 ++ "," ++ w1 ++ x2 ++ "," ++ w2 ++ x3 ++ rest.

(** The same without the condition that the third group is the longest. *)
Definition matches_rgb_pattern (s : string) : Prop :=
  exists a x1 w1 x2 w2 x3 rest,
    (a = "" \/ a = "a") /\
    is_number x1 /\ is_number x2 /\ is_number x3 /\
    all_chars is_space w1 = true /\ all_chars is_space w2 = true /\
    s = "rgb" ++ a ++ "(" ++ x1 ++ "," ++ w1 ++ x2 ++ "," ++ w2 ++ x3 ++ rest.

(** The pixels [get_colors] counts: those of the array with [alpha > 0]. *)
Definition sampled (arr : Image) : list pixel :=
  filter (fun p => 0 <? alpha p) (List.concat arr).

Definition rgb_eqb (c d : rgb) : bool :=
  match rgb_compare c d with
  | Eq => true
  | _ => false
  end.

(** How many sampled pixels have the colour [c]. *)
Definition frequency (arr : Image) (c : rgb) : Z :=
  Z.of_nat (List.length (filter (fun p => rgb_eqb c (pixel_rgb p)) (sampled arr))).

(** The order [np.unique] sorts rows by, as a proposition. *)
Definition rgb_lt (c d : rgb) : Prop :=
  let '(r, g, b) := c in
  let '(r', g', b') := d in
  r < r' \/ (r = r' /\ (g < g' \/ (g = g' /\ b < b'))).

(** How often the row [c] occurs among [rows]. *)
Definition count_of (c : rgb) (rows : list rgb) : Z :=
  Z.of_nat (List.length (filter (rgb_eqb c) rows)).

(** A table of rows and counts whose rows strictly increase. *)
Definition table_sorted (t : list (rgb * Z)) : Prop :=
  StronglySorted (fun a b => rgb_lt (fst a) (fst b)) t.

(** The squared distance in RGB space between a pixel and a colour. *)
Definition squared_distance (p : pixel) (c : rgb) : Z :=
  let '(r1, g1, b1) := c in
  (red p - r1) ^ 2 + (green p - g1) ^ 2 + (blue p - b1) ^ 2.

(** The Euclidean distance, as a real number. *)
Definition euclidean_distance (p : pixel) (c : rgb) : R :=
  R_sqrt.sqrt (IZR (squared_distance p c)).

(** The distance as [replace_color_with_tolerance] computes it, in float64. *)
Definition float_distance (p : pixel) (c : rgb) : PrimFloat.float :=
  PrimFloat.sqrt (float_of_int (squared_distance p c)).

(** A pixel qualifies for replacement: its computed distance to the colour is
    at most the tolerance and it is not fully transparent. *)
Definition qualifies (tolerance : PrimFloat.float) (c : rgb) (p : pixel) : bool :=
  PrimFloat.leb (float_distance p c) tolerance && (0 <? alpha p).

(** What replacement does to one pixel. *)
Definition recolor (tolerance : PrimFloat.float) (c1 c2 : rgb) (p : pixel)
  : pixel :=
  if qualifies tolerance c1 p
  then let '(r2, g2, b2) := c2 in Pixel r2 g2 b2 (alpha p)
  else p.

(** The width of every row, top to bottom. *)
Definition shape (arr : Image) : list nat := map (@List.length pixel) arr.

(** The image of the end-to-end scenario: two rows of two pixels. *)
Definition scenario_image : Image :=
  [[Pixel 255 0 0 255; Pixel 0 255 0 255];
   [Pixel 0 0 0 0; Pixel 250 5 5 255]].

(** ** A table for the float comparison

    For integer tolerances from 0 to 100 and squared distances up to
    [3 * 255^2], comparing the float64 square root with the tolerance gives
    the same answer as comparing the integers; [sqrt_row] checks one squared
    distance against every tolerance, by computation. *)

Fixpoint zrange (lo : Z) (n : nat) : list Z :=
  match n with
  | O => []
  | S k => lo :: zrange (lo + 1) k
  end.

Definition tolerance_table : list (Z * PrimFloat.float) :=
  map (fun t => (t * t, float_of_int t)) (zrange 0 101).

Definition sqrt_row (d2 : Z) : bool :=
  let x := PrimFloat.sqrt (float_of_int d2) in
  forallb (fun tf : Z * PrimFloat.float =>
             Bool.eqb (PrimFloat.leb x (snd tf)) (d2 <=? fst tf))
          tolerance_table.

Fixpoint all_from (p : Z -> bool) (lo : Z) (n : nat) : bool :=
  match n with
  | O => true
  | S k => p lo && all_from p (lo + 1) k
  end.

(* ================================================================== *)
(** * The handlers: [process] and [extract_and_return_choices] *)
(* ================================================================== *)

(** [gr.Textbox(value=..., visible=...)] and [gr.File(value=..., visible=...)]. *)
Record Textbox : Type := { textbox_value : string; textbox_visible : bool }.
Record File : Type := { file_value : string; file_visible : bool }.

(** What [except Exception as e] of [process] can catch. *)
Inductive caught : Type :=
| Core (e : exn)
| NoImage
| SaveFailed (msg : string).

(** [str(e)]. The text of a [ValueError] is the message it was raised with;
    the texts of the interpreter's and NumPy's own errors are given by
    [describe]. *)
Definition caught_str (describe : exn -> string) (c : caught) : string :=
  match c with
  | Core (ValueError msg) => msg
  | Core e => describe e
  | NoImage => "'NoneType' object has no attribute 'convert'"
  | SaveFailed msg => msg
  end.

(** The fixed text in front of the message, in its UTF-8 encoding. *)
Definition error_prefix : string := "⚠️ エラー: ".

(** The body of [try:], up to the path of the file written. [save] stands
    for writing the PNG to a named temporary file: the path, or the message
    of the error raised. *)
Definition process_try (save : Image -> string + string)
  (image : option Image) (selected_color color_to : pyobj)
  (tolerance : PrimFloat.float) : caught + (Image * string) :=
  match parse_color_code selected_color with
  | Raise e => inl (Core e)
  | Ok color_from_hex =>
      match parse_color_code color_to with
      | Raise e => inl (Core e)
      | Ok color_to_hex =>
          match image with
          | None => inl NoImage
          | Some image =>
              match replace_color_with_tolerance image color_from_hex
                      color_to_hex tolerance with
              | Raise e => inl (Core e)
              | Ok result =>
                  match save result with
                  | inl msg => inl (SaveFailed msg)
                  | inr tmp_path => inr (result, tmp_path)
                  end
              end
          end
      end
  end.

(** [process]: the image, the download and the error box. *)
Definition process (save : Image -> string + string) (describe : exn -> string)
  (image : option Image) (selected_color color_to : pyobj)
  (tolerance : PrimFloat.float) : option Image * option File * Textbox :=
  match process_try save image selected_color color_to tolerance with
  | inr (result, tmp_path) =>
      (Some result,
       Some {| file_value := tmp_path; file_visible := true |},
       {| textbox_value := ""; textbox_visible := false |})
  | inl e =>
      (None, None,
       {| textbox_value := error_prefix ++ caught_str describe e;
          textbox_visible := true |})
  end.

(** [gr.update(choices=..., value=...)]. *)
Record DropdownUpdate : Type :=
  { choices : list string; selected : option string }.

(** The text shown when no colour was found, in its UTF-8 encoding. *)
Definition no_colors_warning : string :=
  "⚠️ 有効な色が見つかりませんでした（完全に透明な画像？）".

(** [extract_and_return_choices], for an uploaded image. *)
Definition extract_and_return_choices (resize : Image -> Image)
  (argsort : list Z -> list nat) (image : Image) : DropdownUpdate * string :=
  let colors := get_colors resize argsort image in
  match colors with
  | [] => ({| choices := []; selected := None |}, no_colors_warning)
  | first :: _ =>
      ({| choices := colors; selected := Some first |},
       String.concat ", " colors)
  end.

(** A row of eleven colours: eleven greys, the darkest once, the others twice. *)
Definition eleven_colors : Image :=
  [Pixel 0 0 0 255 ::
   flat_map (fun k => [Pixel k k k 255; Pixel k k k 255])
     [1; 2; 3; 4; 5; 6; 7; 8; 9; 10]].

(** A [save] that always succeeds, with a fixed path. *)
Definition save_as (path : string) (result : Image) : string + string :=
  inr path.

(** The image of the scenario with the two pixels of its first row swapped. *)
Definition scenario_swapped : Image :=
  [[Pixel 0 255 0 255; Pixel 255 0 0 255];
   [Pixel 0 0 0 0; Pixel 250 5 5 255]].

(* ================================================================== *)
(** * Strings *)
(* ================================================================== *)

Lemma append_assoc (a b c : string) : (a ++ b) ++ c = a ++ (b ++ c).
Proof. induction a as [|x a IH]; simpl; [reflexivity | now rewrite IH]. Qed.

Lemma append_empty_r (a : string) : a ++ "" = a.
Proof. induction a as [|x a IH]; simpl; [reflexivity | now rewrite IH]. Qed.

Lemma length_append (a b : string) :
  String.length (a ++ b) = (String.length a + String.length b)%nat.
Proof. induction a as [|x a IH]; simpl; [reflexivity | now rewrite IH]. Qed.

Lemma all_chars_append (p : ascii -> bool) (a b : string) :
  all_chars p (a ++ b) = all_chars p a && all_chars p b.
Proof.
  induction a as [|x a IH]; simpl; [reflexivity |].
  now rewrite IH, andb_assoc.
Qed.

(** What [span] returns: a split of the string, the first part within [p],
    the second part not starting within [p]. *)
Lemma span_spec (p : ascii -> bool) (s a b : string) :
  span p s = (a, b) ->
  s = a ++ b /\ all_chars p a = true /\ stops p b.
Proof.
  revert a b; induction s as [|c s IH]; simpl; intros a b H.
  - inversion H; subst; simpl; auto.
  - destruct (p c) eqn:Hc.
    + destruct (span p s) as [a' b'] eqn:Hs. inversion H; subst.
      destruct (IH a' b eq_refl) as (-> & Ha & Hb). simpl. rewrite Hc. auto.
    + inversion H; subst. simpl. auto.
Qed.

Lemma span_append (p : ascii -> bool) (a b : string) :
  all_chars p a = true -> stops p b -> span p (a ++ b) = (a, b).
Proof.
  intros Ha Hb. induction a as [|c a IH]; simpl in *.
  - destruct b as [|c b]; simpl in *; [reflexivity | now rewrite Hb].
  - apply andb_true_iff in Ha as [Hc Ha]. rewrite Hc, (IH Ha). reflexivity.
Qed.

Lemma lstrip_append (p : ascii -> bool) (a b : string) :
  all_chars p a = true -> stops p b -> lstrip p (a ++ b) = b.
Proof. intros Ha Hb. unfold lstrip. now rewrite span_append. Qed.

Lemma lstrip_spec (p : ascii -> bool) (s : string) :
  exists w, s = w ++ lstrip p s /\ all_chars p w = true.
Proof.
  unfold lstrip. destruct (span p s) as [a b] eqn:H.
  apply span_spec in H as (-> & Ha & _). now exists a.
Qed.

Lemma digit_not_space (c : ascii) : is_digit c = true -> is_space c = false.
Proof.
  unfold is_digit, is_space, in_range. intros H.
  apply andb_true_iff in H as [H1 H2].
  apply Z.leb_le in H1, H2.
  repeat (apply orb_false_iff; split);
    try (apply andb_false_iff; right; apply Z.leb_gt);
    try (apply Z.eqb_neq); lia.
Qed.

Lemma code_inj (c d : ascii) : code c = code d -> c = d.
Proof.
  unfold code. intros H. apply N2Z.inj in H.
  rewrite <- (ascii_N_embedding c), <- (ascii_N_embedding d). now rewrite H.
Qed.

Lemma digit_not_char (c d : ascii) :
  is_digit c = true -> is_digit d = false -> c <> d.
Proof. intros Hc Hd ->. congruence. Qed.

(* ================================================================== *)
(** * The pattern of [parse_color_code] *)
(* ================================================================== *)

Lemma is_number_head (x : string) :
  is_number x -> exists c r, x = String c r /\ is_digit c = true.
Proof.
  intros (ip & fp & Hne & Hip & _ & Hx).
  destruct ip as [|c ip]; [congruence |].
  simpl in Hip. apply andb_true_iff in Hip as [Hc _].
  destruct Hx as [-> | ->]; simpl; eauto.
Qed.

Lemma is_number_stops_space (x r : string) :
  is_number x -> stops is_space (x ++ r).
Proof.
  intros H. destruct (is_number_head x H) as (c & t & -> & Hc).
  simpl. now apply digit_not_space.
Qed.

Lemma scan_number_sound (s x r : string) :
  scan_number s = Some (x, r) -> s = x ++ r /\ is_number x.
Proof.
  unfold scan_number. destruct (span is_digit s) as [ip t] eqn:Hs.
  apply span_spec in Hs as (-> & Hip & Hstop).
  destruct ip as [|c ip]; [discriminate |].
  destruct t as [|d t].
  - intros H; inversion H; subst. split; [reflexivity |].
    exists (String c ip), "". repeat split; auto; discriminate.
  - destruct (Ascii.eqb d ".") eqn:Hd.
    + apply Ascii.eqb_eq in Hd; subst d.
      destruct (span is_digit t) as [fp t'] eqn:Ht.
      apply span_spec in Ht as (-> & Hfp & _).
      intros H; inversion H; subst. split.
      * simpl. f_equal. rewrite append_assoc. reflexivity.
      * exists (String c ip), fp. repeat split; auto; discriminate.
    + intros H; inversion H; subst. split; [reflexivity |].
      exists (String c ip), "". repeat split; auto; discriminate.
Qed.

(** A number followed by text that cannot continue it is scanned whole. *)
Lemma scan_number_comma (x r : string) :
  is_number x -> scan_number (x ++ String "," r) = Some (x, String "," r).
Proof.
  intros (ip & fp & Hne & Hip & Hfp & Hx). unfold scan_number.
  destruct Hx as [-> | ->].
  - rewrite span_append by (simpl; auto).
    destruct ip; [congruence | reflexivity].
  - rewrite append_assoc. simpl.
    rewrite span_append by (simpl; auto).
    destruct ip; [congruence |].
    rewrite span_append by (simpl; auto). reflexivity.
Qed.

(** A number at the head of a string is always scanned, possibly further. *)
Lemma scan_number_some (x r : string) :
  is_number x -> exists x' r', scan_number (x ++ r) = Some (x', r').
Proof.
  intros H. destruct (is_number_head x H) as (c & t & -> & Hc).
  unfold scan_number. simpl. rewrite Hc.
  destruct (span is_digit (t ++ r)) as [ip u].
  destruct u as [|d u]; [eauto |].
  destruct (Ascii.eqb d "."); [| eauto].
  destruct (span is_digit u); eauto.
Qed.

Lemma re_match_rgb_head (a t : string) :
  a = "" \/ a = "a" ->
  re_match_rgb ("rgb" ++ a ++ "(" ++ t) =
    n1 <-? scan_number t ;;
    s5 <-? expect "," (snd n1) ;;
    n2 <-? scan_number (lstrip is_space s5) ;;
    s6 <-? expect "," (snd n2) ;;
    n3 <-? scan_number (lstrip is_space s6) ;;
    Some (fst n1, fst n2, fst n3).
Proof. intros [-> | ->]; reflexivity. Qed.

(** The scanner finds the groups of every string of the functional form. *)
Lemma re_match_rgb_complete (s x1 x2 x3 : string) :
  rgb_functional s x1 x2 x3 -> re_match_rgb s = Some (x1, x2, x3).
Proof.
  intros (a & w1 & w2 & rest & Ha & H1 & H2 & H3 & Hw1 & Hw2 & Hend & ->).
  rewrite re_match_rgb_head by assumption.
  change ("," ++ w1 ++ x2 ++ "," ++ w2 ++ x3 ++ rest)
    with (String "," (w1 ++ x2 ++ String "," (w2 ++ x3 ++ rest))).
  rewrite scan_number_comma by assumption. simpl.
  rewrite lstrip_append; auto using is_number_stops_space.
  rewrite scan_number_comma by assumption. simpl.
  rewrite lstrip_append; auto using is_number_stops_space.
  rewrite Hend. reflexivity.
Qed.

Lemma expect_sound (c : ascii) (s r : string) :
  expect c s = Some r -> s = String c r.
Proof.
  destruct s as [|d s]; simpl; [discriminate |].
  destruct (Ascii.eqb c d) eqn:E; [| discriminate].
  apply Ascii.eqb_eq in E. intros H; inversion H; subst. reflexivity.
Qed.

Lemma optional_sound (c : ascii) (s : string) :
  exists a, (a = "" \/ a = String c "") /\ s = a ++ optional c s.
Proof.
  destruct s as [|d s]; simpl.
  - exists "". auto.
  - destruct (Ascii.eqb c d) eqn:E.
    + apply Ascii.eqb_eq in E; subst. exists (String d ""). auto.
    + exists "". auto.
Qed.

(** Whatever the scanner returns comes from a string of the functional form. *)
Lemma re_match_rgb_sound (s x1 x2 x3 : string) :
  re_match_rgb s = Some (x1, x2, x3) -> rgb_functional s x1 x2 x3.
Proof.
  unfold re_match_rgb, obind.
  destruct (expect "r" s) as [s1|] eqn:E1; [| discriminate].
  destruct (expect "g" s1) as [s2|] eqn:E2; [| discriminate].
  destruct (expect "b" s2) as [s3|] eqn:E3; [| discriminate].
  destruct (expect "(" (optional "a" s3)) as [s4|] eqn:E4; [| discriminate].
  destruct (scan_number s4) as [[y1 t1]|] eqn:N1; [| discriminate].
  simpl. destruct (expect "," t1) as [s5|] eqn:E5; [| discriminate].
  destruct (scan_number (lstrip is_space s5)) as [[y2 t2]|] eqn:N2;
    [| discriminate].
  simpl. destruct (expect "," t2) as [s6|] eqn:E6; [| discriminate].
  destruct (scan_number (lstrip is_space s6)) as [[y3 t3]|] eqn:N3;
    [| discriminate].
  simpl. intros H; inversion H; subst y1 y2 y3; clear H.
  apply expect_sound in E1, E2, E3, E4, E5, E6.
  destruct (optional_sound "a" s3) as (a & Ha & Hs3).
  destruct (lstrip_spec is_space s5) as (w1 & Hs5 & Hw1).
  destruct (lstrip_spec is_space s6) as (w2 & Hs6 & Hw2).
  pose proof (scan_number_sound _ _ _ N1) as [P1 Q1].
  pose proof (scan_number_sound _ _ _ N2) as [P2 Q2].
  pose proof (scan_number_sound _ _ _ N3) as [P3 Q3].
  exists a, w1, w2, t3. repeat split; auto.
  - rewrite <- P3. exact N3.
  - subst s s1 s2. rewrite Hs3, E4, P1, E5, Hs5, P2, E6, Hs6, P3.
    simpl. repeat rewrite append_assoc. reflexivity.
Qed.

(** The scanner succeeds exactly on the strings the pattern matches. *)
Lemma re_match_rgb_matches (s : string) :
  matches_rgb_pattern s <-> exists x1 x2 x3, re_match_rgb s = Some (x1, x2, x3).
Proof.
  split.
  - intros (a & x1 & w1 & x2 & w2 & x3 & rest &
            Ha & H1 & H2 & H3 & Hw1 & Hw2 & ->).
    destruct (scan_number_some x3 rest H3) as (x3' & rest' & Hs).
    exists x1, x2, x3'.
    pose proof (scan_number_sound _ _ _ Hs) as [Heq H3'].
    apply re_match_rgb_complete.
    exists a, w1, w2, rest'. repeat split; auto.
    + rewrite <- Heq. exact Hs.
    + rewrite <- Heq. reflexivity.
  - intros (x1 & x2 & x3 & H).
    apply re_match_rgb_sound in H
      as (a & w1 & w2 & rest & Ha & H1 & H2 & H3 & Hw1 & Hw2 & _ & Hs).
    exists a, x1, w1, x2, w2, x3, rest. repeat split; auto.
Qed.

(* ================================================================== *)
(** * [float] and [int] on the groups *)
(* ================================================================== *)

Lemma digits_value_nonneg (s : string) (acc : Z) :
  0 <= acc -> all_chars is_digit s = true -> 0 <= digits_value acc s.
Proof.
  revert acc; induction s as [|c s IH]; cbn [digits_value all_chars];
    intros acc Hacc H; [exact Hacc |].
  apply andb_true_iff in H as [Hc Hs]. apply IH; [| exact Hs].
  unfold is_digit, in_range in Hc. apply andb_true_iff in Hc as [H1 _].
  apply Z.leb_le in H1. lia.
Qed.

Lemma round_half_even_nonneg (num den : Z) :
  0 <= num -> 0 < den -> 0 <= round_half_even num den.
Proof.
  intros Hn Hd. unfold round_half_even. cbv zeta.
  assert (0 <= num / den) by (apply Z.div_pos; lia).
  repeat match goal with |- context [if ?b then _ else _] => destruct b end; lia.
Qed.

Lemma float_of_ratio_nonneg (n d m e : Z) :
  0 <= n -> 0 < d -> float_of_ratio n d = Finite m e -> 0 <= m.
Proof.
  intros Hn Hd. unfold float_of_ratio.
  destruct (n =? 0); [intros H; inversion H; lia |].
  set (ex := Z.max _ _).
  destruct (_ || _); [discriminate |].
  intros H; inversion H; subst.
  destruct (0 <=? ex) eqn:E.
  - apply Z.leb_le in E. apply round_half_even_nonneg; [lia |].
    apply Z.mul_pos_pos; [lia |]. apply Z.pow_pos_nonneg; lia.
  - apply Z.leb_gt in E. apply round_half_even_nonneg; [| lia].
    apply Z.mul_nonneg_nonneg; [lia |]. apply Z.pow_nonneg; lia.
Qed.

Lemma py_int_nonneg (n d v : Z) :
  0 <= n -> 0 < d -> py_int (float_of_ratio n d) = Ok v -> 0 <= v.
Proof.
  intros Hn Hd. destruct (float_of_ratio n d) as [m e|] eqn:F; simpl;
    [| discriminate].
  apply float_of_ratio_nonneg in F; try assumption.
  intros H; inversion H; subst.
  destruct (0 <=? e) eqn:E.
  - apply Z.mul_nonneg_nonneg; [lia |]. apply Z.pow_nonneg; lia.
  - apply Z.leb_gt in E. apply Z.div_pos; [lia |].
    apply Z.pow_pos_nonneg; lia.
Qed.

Lemma py_int_total (f : pyfloat) :
  (exists v, py_int f = Ok v) \/ py_int f = Raise OverflowError.
Proof. destruct f; simpl; eauto. Qed.

(** [float] accepts every group of the pattern. *)
Lemma py_float_number (x : string) :
  is_number x ->
  exists n d, 0 <= n /\ 0 < d /\ py_float x = Ok (float_of_ratio n d).
Proof.
  intros (ip & fp & Hne & Hip & Hfp & Hx). unfold py_float.
  destruct Hx as [-> | ->].
  - pose proof (span_append is_digit ip "" Hip I) as Hs.
    rewrite append_empty_r in Hs. rewrite Hs.
    destruct ip as [|c ip]; [congruence |].
    exists (digits_value 0 (String c ip)), 1. repeat split; try lia.
    apply digits_value_nonneg; [lia | assumption].
  - rewrite span_append by (simpl; auto).
    destruct ip as [|c ip]; [congruence |].
    rewrite Hfp. simpl (Ascii.eqb _ _ && true).
    cbv iota.
    exists (digits_value 0 (String c ip ++ fp)),
           (10 ^ Z.of_nat (String.length fp)).
    repeat split.
    + apply digits_value_nonneg; [lia |].
      rewrite all_chars_append, Hip, Hfp. reflexivity.
    + apply Z.pow_pos_nonneg; lia.
Qed.

(** [int(float(x))] on a group is a non-negative integer, or the float is
    infinite and [int] raises [OverflowError]. *)
Lemma int_float_number (x : string) :
  is_number x ->
  (exists v, int_float x = Ok v /\ 0 <= v) \/ int_float x = Raise OverflowError.
Proof.
  intros H. destruct (py_float_number x H) as (n & d & Hn & Hd & Hf).
  unfold int_float. rewrite Hf. simpl.
  destruct (py_int_total (float_of_ratio n d)) as [[v Hv] | Hv]; rewrite Hv.
  - left. exists v. split; [reflexivity |]. eapply py_int_nonneg; eauto.
  - right. reflexivity.
Qed.

(* ================================================================== *)
(** * Formatting *)
(* ================================================================== *)

Lemma hex_of_pos_length (fuel : nat) (n : Z) (acc : string) :
  (String.length acc <= String.length (hex_of_pos fuel n acc))%nat.
Proof.
  revert n acc; induction fuel as [|k IH]; intros n acc; cbn [hex_of_pos].
  - lia.
  - destruct (n <? 16).
    + cbn [String.length]. lia.
    + specialize (IH (n / 16) (String (hex_char (n mod 16)) acc)).
      cbn [String.length] in IH. lia.
Qed.

Lemma hex_of_nat_small (n : Z) :
  0 <= n < 16 -> hex_of_nat n = String (hex_char n) "".
Proof.
  intros H. unfold hex_of_nat. cbn [hex_of_pos].
  replace (n <? 16) with true by (symmetry; apply Z.ltb_lt; lia).
  rewrite Z.mod_small by lia. reflexivity.
Qed.

Lemma log2_fuel (n : Z) (k : Z) :
  0 <= k -> 2 ^ k <= n ->
  exists f, Z.to_nat (Z.log2 n) = (Z.to_nat k + f)%nat.
Proof.
  intros Hk Hn.
  assert (k <= Z.log2 n) by (apply Z.log2_le_pow2; lia).
  exists (Z.to_nat (Z.log2 n - k)). lia.
Qed.

Lemma hex_of_nat_byte (n : Z) :
  16 <= n <= 255 ->
  hex_of_nat n = String (hex_char (n / 16)) (String (hex_char (n mod 16)) "").
Proof.
  intros H. unfold hex_of_nat.
  destruct (log2_fuel n 1) as [f Hf]; [lia | simpl; lia |].
  rewrite Hf. change (Z.to_nat 1) with 1%nat. cbn [Nat.add hex_of_pos].
  replace (n <? 16) with false by (symmetry; apply Z.ltb_ge; lia).
  assert (0 <= n / 16 < 16).
  { split; [apply Z.div_pos; lia | apply Z.div_lt_upper_bound; lia]. }
  replace (n / 16 <? 16) with true by (symmetry; apply Z.ltb_lt; lia).
  rewrite (Z.mod_small (n / 16)) by lia. reflexivity.
Qed.

(** A byte is formatted as exactly two digits. *)
Lemma format_02x_byte (n : Z) :
  0 <= n <= 255 ->
  format_02x n = String (hex_char (n / 16)) (String (hex_char (n mod 16)) "").
Proof.
  intros H. unfold format_02x.
  replace (n <? 0) with false by (symmetry; apply Z.ltb_ge; lia).
  destruct (n <? 16) eqn:E.
  - apply Z.ltb_lt in E. rewrite hex_of_nat_small by lia.
    rewrite Z.div_small, Z.mod_small by lia. reflexivity.
  - apply Z.ltb_ge in E. apply hex_of_nat_byte. lia.
Qed.

(** A larger number is formatted as three digits or more. *)
Lemma format_02x_wide (n : Z) :
  256 <= n -> (3 <= String.length (format_02x n))%nat.
Proof.
  intros H. unfold format_02x.
  replace (n <? 0) with false by (symmetry; apply Z.ltb_ge; lia).
  replace (n <? 16) with false by (symmetry; apply Z.ltb_ge; lia).
  unfold hex_of_nat.
  destruct (log2_fuel n 2) as [f Hf]; [lia | simpl; lia |].
  rewrite Hf. change (Z.to_nat 2) with 2%nat. cbn [Nat.add hex_of_pos].
  replace (n <? 16) with false by (symmetry; apply Z.ltb_ge; lia).
  assert (16 <= n / 16) by (apply Z.div_le_lower_bound; lia).
  replace (n / 16 <? 16) with false by (symmetry; apply Z.ltb_ge; lia).
  match goal with
  | |- (_ <= String.length (if ?b then ?s else hex_of_pos ?k ?m ?s))%nat =>
      pose proof (hex_of_pos_length k m s) as L; destruct b
  end; cbn [String.length] in *; lia.
Qed.

Lemma format_02x_length (n : Z) :
  0 <= n ->
  (2 <= String.length (format_02x n))%nat /\
  (String.length (format_02x n) = 2%nat <-> n <= 255).
Proof.
  intros H. destruct (Z_le_gt_dec n 255) as [Hle | Hgt].
  - rewrite format_02x_byte by lia. cbn [String.length]. split; [lia |].
    split; intros; [assumption | reflexivity].
  - pose proof (format_02x_wide n ltac:(lia)). split; [lia |].
    split; intros; lia.
Qed.

Lemma hex_char_lower (d : Z) : 0 <= d < 16 -> is_lower_hex (hex_char d) = true.
Proof.
  intros H.
  assert (C : d = 0 \/ d = 1 \/ d = 2 \/ d = 3 \/ d = 4 \/ d = 5 \/ d = 6 \/
              d = 7 \/ d = 8 \/ d = 9 \/ d = 10 \/ d = 11 \/ d = 12 \/
              d = 13 \/ d = 14 \/ d = 15) by lia.
  repeat (destruct C as [-> | C]; [reflexivity |]). subst; reflexivity.
Qed.

Lemma format_02x_lower (n : Z) :
  0 <= n <= 255 -> all_chars is_lower_hex (format_02x n) = true.
Proof.
  intros H. rewrite format_02x_byte by assumption. cbn [all_chars].
  rewrite !hex_char_lower; [reflexivity | |].
  - apply Z.mod_pos_bound; lia.
  - split; [apply Z.div_pos; lia | apply Z.div_lt_upper_bound; lia].
Qed.

(** Three bytes are formatted as a canonical colour. *)
Lemma format_hex_canonical (r g b : Z) :
  0 <= r <= 255 -> 0 <= g <= 255 -> 0 <= b <= 255 ->
  is_canonical (format_hex r g b) = true.
Proof.
  intros Hr Hg Hb. unfold format_hex.
  change ("#" ++ ?s) with (String "#" s). cbn [is_canonical].
  rewrite !all_chars_append, !length_append, !format_02x_lower by assumption.
  rewrite !format_02x_byte by assumption. reflexivity.
Qed.

(** Unclamped channels: the result is canonical exactly when all three are
    at most 255. *)
Lemma format_hex_canonical_iff (r g b : Z) :
  0 <= r -> 0 <= g -> 0 <= b ->
  is_canonical (format_hex r g b) = true <-> r <= 255 /\ g <= 255 /\ b <= 255.
Proof.
  intros Hr Hg Hb. split.
  - unfold format_hex. change ("#" ++ ?s) with (String "#" s).
    cbn [is_canonical]. intros H.
    apply andb_true_iff in H as [H _]. apply andb_true_iff in H as [_ H].
    apply Nat.eqb_eq in H. rewrite !length_append in H.
    destruct (format_02x_length r Hr) as [Lr Er].
    destruct (format_02x_length g Hg) as [Lg Eg].
    destruct (format_02x_length b Hb) as [Lb Eb].
    repeat split; [apply Er | apply Eg | apply Eb]; lia.
  - intros (? & ? & ?). apply format_hex_canonical; lia.
Qed.

(* ================================================================== *)
(** * [parse_color_code] *)
(* ================================================================== *)

Lemma hash7_check (s : string) :
  startswith_hash s && (String.length s =? 7)%nat = true <-> is_hash7 s.
Proof.
  unfold is_hash7. split.
  - intros H. apply andb_true_iff in H as [H1 H2].
    apply Nat.eqb_eq in H2. split; [assumption |].
    destruct s as [|c s]; simpl in H1; [discriminate |].
    apply Ascii.eqb_eq in H1; subst. eauto.
  - intros [H1 [r ->]]. rewrite H1. reflexivity.
Qed.

Lemma rgb_functional_not_hash (s x1 x2 x3 : string) :
  rgb_functional s x1 x2 x3 -> startswith_hash s = false.
Proof. intros (a & w1 & w2 & rest & _ & _ & _ & _ & _ & _ & _ & ->). reflexivity. Qed.

(** On a string of the functional form, [parse_color_code] is the conversion
    of the three groups. *)
Lemma parse_color_code_rgb (s x1 x2 x3 : string) :
  rgb_functional s x1 x2 x3 ->
  parse_color_code (Str s) =
    r <- int_float x1 ;; g <- int_float x2 ;; b <- int_float x3 ;;
    Ok (format_hex r g b).
Proof.
  intros H. unfold parse_color_code.
  rewrite (rgb_functional_not_hash _ _ _ _ H). cbn [andb].
  rewrite (re_match_rgb_complete _ _ _ _ H). reflexivity.
Qed.

(** The ways [parse_color_code] returns a string. *)
Lemma parse_color_code_ok (v : pyobj) (out : string) :
  parse_color_code v = Ok out ->
  (exists s, v = Str s /\ is_hash7 s /\ out = s) \/
  (exists s x1 x2 x3 r g b,
      v = Str s /\ rgb_functional s x1 x2 x3 /\
      int_float x1 = Ok r /\ int_float x2 = Ok g /\ int_float x3 = Ok b /\
      0 <= r /\ 0 <= g /\ 0 <= b /\
      out = format_hex r g b).
Proof.
  destruct v as [s|]; [| discriminate]. unfold parse_color_code.
  destruct (startswith_hash s && (String.length s =? 7)%nat) eqn:E.
  - intros H; inversion H; subst. left. exists out.
    repeat split; try reflexivity; now apply hash7_check.
  - destruct (re_match_rgb s) as [[[x1 x2] x3]|] eqn:M; [| discriminate].
    pose proof (re_match_rgb_sound _ _ _ _ M) as F.
    destruct F as (a & w1 & w2 & rest & Ha & H1 & H2 & H3 & Hw1 & Hw2 & He & Hs).
    destruct (int_float_number x1 H1) as [(r & Er & Hr) | Er]; rewrite Er;
      [| discriminate].
    destruct (int_float_number x2 H2) as [(g & Eg & Hg) | Eg]; rewrite Eg;
      [| discriminate].
    destruct (int_float_number x3 H3) as [(b & Eb & Hb) | Eb]; rewrite Eb;
      [| discriminate].
    cbn [bind]. intros H; inversion H; subst out. right.
    exists s, x1, x2, x3, r, g, b. repeat split; auto.
    exists a, w1, w2, rest. repeat split; auto.
Qed.

(** C5. A string of seven characters that starts with [#] is returned as it
    is, whatever its other six characters are. *)
Theorem parse_color_code_hash7 (s : string) :
  is_hash7 s -> parse_color_code (Str s) = Ok s.
Proof.
  intros H. unfold parse_color_code.
  apply hash7_check in H. rewrite H. reflexivity.
Qed.

Lemma parse_color_code_hash7_witness :
  is_hash7 "#zzzzzz" /\ parse_color_code (Str "#zzzzzz") = Ok "#zzzzzz".
Proof.
  assert (H : is_hash7 "#zzzzzz") by (split; [reflexivity | eexists; reflexivity]).
  exact (conj H (parse_color_code_hash7 "#zzzzzz" H)).
Defined.

(** C7. A string that is neither of the seven-character [#] form nor matched
    by the [rgb(]/[rgba(] pattern makes [parse_color_code] raise [ValueError]
    with a message that ends with the string itself. *)
Theorem parse_color_code_invalid (s : string) :
  ~ is_hash7 s -> ~ matches_rgb_pattern s ->
  parse_color_code (Str s) = Raise (ValueError (invalid_color_prefix ++ s)).
Proof.
  intros Hh Hm. unfold parse_color_code.
  destruct (startswith_hash s && (String.length s =? 7)%nat) eqn:E.
  - exfalso. apply Hh. now apply hash7_check.
  - destruct (re_match_rgb s) as [[[x1 x2] x3]|] eqn:M; [| reflexivity].
    exfalso. apply Hm. apply re_match_rgb_matches. eauto.
Qed.

Lemma parse_color_code_invalid_witness :
  parse_color_code (Str "not-a-color") =
    Raise (ValueError (invalid_color_prefix ++ "not-a-color")).
Proof.
  apply parse_color_code_invalid.
  - intros [H _]. discriminate H.
  - intros H. apply re_match_rgb_matches in H as (x1 & x2 & x3 & H).
    discriminate H.
Defined.

(* ================================================================== *)
(** * Floats as real numbers *)
(* ================================================================== *)

Lemma IZR_div_mul (m k : Z) : 0 < k -> (IZR m / IZR k * IZR k = IZR m)%R.
Proof.
  intros Hk. unfold Rdiv. rewrite Rmult_assoc, Rinv_l; [apply Rmult_1_r |].
  apply Rgt_not_eq. now apply IZR_lt.
Qed.

Lemma IZR_div_le (a m k : Z) :
  0 < k -> (IZR a <= IZR m / IZR k)%R <-> a * k <= m.
Proof.
  intros Hk. assert (Rk : (0 < IZR k)%R) by (apply IZR_lt; assumption).
  pose proof (IZR_div_mul m k Hk) as E. split.
  - intros H. apply le_IZR. rewrite mult_IZR, <- E.
    apply Rmult_le_compat_r; [now apply Rlt_le | assumption].
  - intros H. apply (Rmult_le_reg_r (IZR k)); [assumption |].
    rewrite E, <- mult_IZR. now apply IZR_le.
Qed.

Lemma IZR_div_ge (b m k : Z) :
  0 < k -> (IZR m / IZR k <= IZR b)%R <-> m <= b * k.
Proof.
  intros Hk. assert (Rk : (0 < IZR k)%R) by (apply IZR_lt; assumption).
  pose proof (IZR_div_mul m k Hk) as E. split.
  - intros H. apply le_IZR. rewrite mult_IZR, <- E.
    apply Rmult_le_compat_r; [now apply Rlt_le | assumption].
  - intros H. apply (Rmult_le_reg_r (IZR k)); [assumption |].
    rewrite E, <- mult_IZR. now apply IZR_le.
Qed.

Lemma IZR_div_lt (b m k : Z) :
  0 < k -> (IZR m / IZR k < IZR b)%R <-> m < b * k.
Proof.
  intros Hk. assert (Rk : (0 < IZR k)%R) by (apply IZR_lt; assumption).
  pose proof (IZR_div_mul m k Hk) as E. split.
  - intros H. apply lt_IZR. rewrite mult_IZR, <- E.
    now apply Rmult_lt_compat_r.
  - intros H. apply (Rmult_lt_reg_r (IZR k)); [assumption |].
    rewrite E, <- mult_IZR. now apply IZR_lt.
Qed.

(** [int] cuts the fraction off a finite float. *)
Lemma py_int_truncation (m e r : Z) :
  py_int (Finite m e) = Ok r -> truncation_of (Finite m e) r.
Proof.
  cbn [py_int truncation_of]. unfold float_value. intros H.
  injection H as <-. destruct (0 <=? e) eqn:E.
  - split; [apply Rle_refl |]. rewrite <- plus_IZR. apply IZR_lt. lia.
  - apply Z.leb_gt in E.
    assert (Hk : 0 < 2 ^ (- e)) by (apply Z.pow_pos_nonneg; lia).
    split.
    + apply IZR_div_le; [assumption |].
      rewrite Z.mul_comm. apply Z.mul_div_le. assumption.
    + rewrite <- plus_IZR. apply IZR_div_lt; [assumption |].
      rewrite Z.mul_comm. apply Z.mul_succ_div_gt. assumption.
Qed.

(** [int(float(x))] is the float of [x] with its fraction cut off. *)
Lemma int_float_truncation (x : string) (r : Z) :
  int_float x = Ok r ->
  exists f, py_float x = Ok f /\ truncation_of f r.
Proof.
  unfold int_float. destruct (py_float x) as [f|]; [| discriminate].
  cbn [bind]. destruct f as [m e|]; [| discriminate].
  intros H. exists (Finite m e). split; [reflexivity |].
  now apply py_int_truncation.
Qed.

Ltac number_of ip fp :=
  exists ip, fp; repeat split; try reflexivity; try discriminate; auto.

(** C6, as the code has it. On a string the pattern matches, every group is
    converted by [int(float(x))]: the group has a float, and the integer is
    that float with its fraction cut off. The three integers are formatted in
    lowercase hexadecimal, zero-padded to two digits at least, after [#];
    what follows the third group is ignored. Nothing is clamped: the result
    is a canonical colour exactly when all three integers are at most 255.
    A group whose float is infinite makes the call raise [OverflowError]. *)
Theorem parse_color_code_functional (s x1 x2 x3 : string) :
  rgb_functional s x1 x2 x3 ->
  (exists r g b,
      int_float x1 = Ok r /\ int_float x2 = Ok g /\ int_float x3 = Ok b /\
      (exists f1 f2 f3,
          py_float x1 = Ok f1 /\ py_float x2 = Ok f2 /\ py_float x3 = Ok f3 /\
          truncation_of f1 r /\ truncation_of f2 g /\ truncation_of f3 b) /\
      0 <= r /\ 0 <= g /\ 0 <= b /\
      parse_color_code (Str s) =
        Ok ("#" ++ format_02x r ++ format_02x g ++ format_02x b) /\
      (is_canonical ("#" ++ format_02x r ++ format_02x g ++ format_02x b) = true
       <-> r <= 255 /\ g <= 255 /\ b <= 255)) \/
  ((int_float x1 = Raise OverflowError \/ int_float x2 = Raise OverflowError \/
    int_float x3 = Raise OverflowError) /\
   parse_color_code (Str s) = Raise OverflowError).
Proof.
  intros H. rewrite (parse_color_code_rgb _ _ _ _ H).
  destruct H as (a & w1 & w2 & rest & Ha & H1 & H2 & H3 & _).
  destruct (int_float_number x1 H1) as [(r & Er & Hr) | Er]; rewrite Er;
    [| right; split; [auto | reflexivity]].
  destruct (int_float_number x2 H2) as [(g & Eg & Hg) | Eg]; rewrite Eg;
    [| right; split; [auto | reflexivity]].
  destruct (int_float_number x3 H3) as [(b & Eb & Hb) | Eb]; rewrite Eb;
    [| right; split; [auto | reflexivity]].
  left. exists r, g, b.
  destruct (int_float_truncation x1 r Er) as (f1 & F1 & T1).
  destruct (int_float_truncation x2 g Eg) as (f2 & F2 & T2).
  destruct (int_float_truncation x3 b Eb) as (f3 & F3 & T3).
  split; [reflexivity |]. split; [reflexivity |]. split; [reflexivity |].
  split; [exists f1, f2, f3; repeat split; assumption |].
  split; [assumption |]. split; [assumption |]. split; [assumption |].
  split; [reflexivity |].
  apply (format_hex_canonical_iff r g b Hr Hg Hb).
Qed.

Lemma rgba_example_functional :
  rgb_functional "rgba(26, 43, 60, 0.5)" "26" "43" "60".
Proof.
  exists "a", " ", " ", ", 0.5)". repeat split; auto.
  - number_of "26" "".
  - number_of "43" "".
  - number_of "60" "".
Qed.

Lemma decimal_example_functional :
  rgb_functional "rgb(2.9, 43.5, 60.99)" "2.9" "43.5" "60.99".
Proof.
  exists "", " ", " ", ")". repeat split; auto.
  - number_of "2" "9".
  - number_of "43" "5".
  - number_of "60" "99".
Qed.

Lemma parse_color_code_functional_witness :
  parse_color_code (Str "rgba(26, 43, 60, 0.5)") = Ok "#1a2b3c" /\
  parse_color_code (Str "rgb(2.9, 43.5, 60.99)") = Ok "#022b3c".
Proof.
  split.
  - destruct (parse_color_code_functional _ _ _ _ rgba_example_functional)
      as [(r & g & b & Er & Eg & Eb & _ & _ & _ & _ & E & _) | [_ E]].
    + inversion Er; inversion Eg; inversion Eb; subst. exact E.
    + discriminate E.
  - destruct (parse_color_code_functional _ _ _ _ decimal_example_functional)
      as [(r & g & b & Er & Eg & Eb & _ & _ & _ & _ & E & _) | [_ E]].
    + inversion Er; inversion Eg; inversion Eb; subst. exact E.
    + discriminate E.
Defined.

(** C6 as stated fails: the channel 256 is not rendered as a two-digit byte,
    and the string returned has eight characters. *)
Lemma parse_color_code_functional_counterexample :
  rgb_functional "rgb(256, 0, 0)" "256" "0" "0" /\
  parse_color_code (Str "rgb(256, 0, 0)") = Ok "#1000000" /\
  format_02x 256 = "100" /\
  is_canonical "#1000000" = false.
Proof.
  repeat split.
  exists "", " ", " ", ")". repeat split; auto.
  - number_of "256" "".
  - number_of "0" "".
  - number_of "0" "".
Qed.

(** C10. The pattern is matched against a prefix only: text after the third
    number that cannot continue it is ignored, closing parenthesis or not;
    and a minus sign in front of the first channel makes the call raise the
    [ValueError] of [parse_color_code]. *)
Theorem parse_color_code_prefix_only (c : ascii) (junk rest : string) :
  is_digit c = false -> c <> "."%char ->
  parse_color_code (Str "rgb(1, 2, 3") = Ok "#010203" /\
  parse_color_code (Str "rgb(1, 2, 3junk") = Ok "#010203" /\
  parse_color_code (Str ("rgb(1, 2, 3" ++ String c junk)) = Ok "#010203" /\
  parse_color_code (Str "rgb(-1, 0, 0)") =
    Raise (ValueError (invalid_color_prefix ++ "rgb(-1, 0, 0)")) /\
  parse_color_code (Str ("rgb(-" ++ rest)) =
    Raise (ValueError (invalid_color_prefix ++ "rgb(-" ++ rest)) /\
  parse_color_code (Str ("rgba(-" ++ rest)) =
    Raise (ValueError (invalid_color_prefix ++ "rgba(-" ++ rest)).
Proof.
  intros Hc Hp. repeat split.
  assert (F : rgb_functional ("rgb(1, 2, 3" ++ String c junk) "1" "2" "3").
  { exists "", " ", " ", (String c junk). repeat split; auto.
    - number_of "1" "".
    - number_of "2" "".
    - number_of "3" "".
    - unfold scan_number. cbn [append span].
      change (is_digit "3") with true. cbn iota. rewrite Hc.
      destruct (Ascii.eqb c ".") eqn:E; [| reflexivity].
      apply Ascii.eqb_eq in E. contradiction. }
  rewrite (parse_color_code_rgb _ _ _ _ F). reflexivity.
Qed.

Lemma parse_color_code_prefix_only_witness :
  parse_color_code (Str ("rgb(1, 2, 3" ++ ")")) = Ok "#010203" /\
  parse_color_code (Str ("rgb(-" ++ "1, 0, 0)")) =
    Raise (ValueError (invalid_color_prefix ++ "rgb(-" ++ "1, 0, 0)")).
Proof.
  destruct (parse_color_code_prefix_only ")" "" "1, 0, 0)" eq_refl)
    as (_ & _ & H3 & _ & H5 & _); [discriminate |].
  exact (conj H3 H5).
Defined.

(* ================================================================== *)
(** * Arrays *)
(* ================================================================== *)

Lemma zip_with_map {A B C D : Type} (f : B -> C -> D) (g : A -> B) (h : A -> C)
  (l : list A) :
  zip_with f (map g l) (map h l) = map (fun x => f (g x) (h x)) l.
Proof. induction l as [|x l IH]; simpl; [reflexivity | now rewrite IH]. Qed.

Lemma grid_zip_with_map {A B C D : Type} (f : B -> C -> D) (g : A -> B)
  (h : A -> C) (a : list (list A)) :
  grid_zip_with f (grid_map g a) (grid_map h a) =
  grid_map (fun x => f (g x) (h x)) a.
Proof.
  unfold grid_zip_with, grid_map. rewrite zip_with_map.
  apply map_ext. intros row. apply zip_with_map.
Qed.

Lemma grid_map_map {A B C : Type} (f : A -> B) (g : B -> C) (a : list (list A)) :
  grid_map g (grid_map f a) = grid_map (fun x => g (f x)) a.
Proof.
  unfold grid_map. rewrite map_map. apply map_ext. intros row. apply map_map.
Qed.

Lemma grid_map_id {A : Type} (a : list (list A)) : grid_map (fun x => x) a = a.
Proof.
  unfold grid_map. rewrite <- (map_id a) at 2.
  apply map_ext. intros row. apply map_id.
Qed.

Lemma grid_zip_with_map_r {A B C : Type} (f : B -> A -> C) (g : A -> B)
  (a : list (list A)) :
  grid_zip_with f (grid_map g a) a = grid_map (fun x => f (g x) x) a.
Proof.
  rewrite <- (grid_map_id a) at 2. apply grid_zip_with_map.
Qed.

Lemma grid_map_ext {A B : Type} (f g : A -> B) (a : list (list A)) :
  (forall x, f x = g x) -> grid_map f a = grid_map g a.
Proof.
  intros H. unfold grid_map. apply map_ext. intros row. now apply map_ext.
Qed.

Lemma pixel_at_grid_map (f : pixel -> pixel) (arr : Image) (i j : nat) :
  pixel_at (grid_map f arr) i j = option_map f (pixel_at arr i j).
Proof.
  unfold pixel_at, grid_map. rewrite nth_error_map.
  destruct (nth_error arr i) as [row|]; simpl; [| reflexivity].
  apply nth_error_map.
Qed.

Lemma pixel_at_In (arr : Image) (i j : nat) (p : pixel) :
  pixel_at arr i j = Some p -> exists row, In row arr /\ In p row.
Proof.
  unfold pixel_at. destruct (nth_error arr i) as [row|] eqn:E; [| discriminate].
  intros H. exists row. split; eapply nth_error_In; eauto.
Qed.

Lemma In_pixel_at (arr : Image) (row : list pixel) (p : pixel) :
  In row arr -> In p row -> exists i j, pixel_at arr i j = Some p.
Proof.
  intros Hr Hp. apply In_nth_error in Hr as [i Hi]. apply In_nth_error in Hp as [j Hj].
  exists i, j. unfold pixel_at. now rewrite Hi.
Qed.

(** Two arrays of the same pixels at every position are equal once they are
    images of one another under a map. *)
Lemma grid_map_fixed (f : pixel -> pixel) (arr : Image) :
  grid_map f arr = arr <->
  (forall i j p, pixel_at arr i j = Some p -> f p = p).
Proof.
  split.
  - intros H i j p Hp.
    assert (E : pixel_at (grid_map f arr) i j = Some p) by (now rewrite H).
    rewrite pixel_at_grid_map, Hp in E. simpl in E. congruence.
  - intros H. rewrite <- (grid_map_id arr) at 2. unfold grid_map.
    apply map_ext_in. intros row Hr. apply map_ext_in. intros p Hp.
    destruct (In_pixel_at arr row p Hr Hp) as (i & j & E). eauto.
Qed.

(* ================================================================== *)
(** * [replace_color_with_tolerance] *)
(* ================================================================== *)

Lemma sum_squares_sub (p : pixel) (c : rgb) :
  sum_squares (np_sub (pixel_rgb p) c) = squared_distance p c.
Proof. destruct c as [[r1 g1] b1]. reflexivity. Qed.

(** The three masked assignments amount to [recolor] at every pixel. *)
Lemma replace_as_recolor (image : Image) (color_from color_to : string)
  (tolerance : PrimFloat.float) (c1 : rgb) (r2 g2 b2 : Z) :
  hex_channels color_from = Ok c1 ->
  hex_channels color_to = Ok (r2, g2, b2) ->
  uint8 r2 = true -> uint8 g2 = true -> uint8 b2 = true ->
  replace_color_with_tolerance image color_from color_to tolerance =
    Ok (grid_map (recolor tolerance c1 (r2, g2, b2)) image).
Proof.
  intros H1 H2 Ur Ug Ub. unfold replace_color_with_tolerance.
  rewrite H1, H2. cbn [bind]. unfold assign_channel, to_uint8.
  rewrite Ur, Ug, Ub. cbn [bind]. f_equal.
  unfold rgb_channels, alpha_channel. rewrite !grid_map_map.
  rewrite grid_zip_with_map.
  rewrite grid_zip_with_map_r, !grid_zip_with_map.
  apply grid_map_ext. intros p. unfold recolor, qualifies, float_distance.
  rewrite sum_squares_sub.
  destruct (PrimFloat.leb _ tolerance && (0 <? alpha p)); reflexivity.
Qed.

(** Whenever the call returns, it returned [recolor] at every pixel. *)
Lemma replace_ok_inv (image out : Image) (color_from color_to : string)
  (tolerance : PrimFloat.float) :
  replace_color_with_tolerance image color_from color_to tolerance = Ok out ->
  exists c1 c2,
    hex_channels color_from = Ok c1 /\ hex_channels color_to = Ok c2 /\
    out = grid_map (recolor tolerance c1 c2) image.
Proof.
  intros H.
  destruct (hex_channels color_from) as [c1|e1] eqn:H1;
    [| unfold replace_color_with_tolerance in H; rewrite H1 in H; discriminate].
  destruct (hex_channels color_to) as [[[r2 g2] b2]|e2] eqn:H2;
    [| unfold replace_color_with_tolerance in H; rewrite H1, H2 in H;
       discriminate].
  destruct (uint8 r2) eqn:Ur;
    [| unfold replace_color_with_tolerance, assign_channel, to_uint8 in H;
       rewrite H1, H2 in H; cbn [bind] in H; rewrite Ur in H; discriminate].
  destruct (uint8 g2) eqn:Ug;
    [| unfold replace_color_with_tolerance, assign_channel, to_uint8 in H;
       rewrite H1, H2 in H; cbn [bind] in H; rewrite Ur in H; cbn [bind] in H;
       rewrite Ug in H; discriminate].
  destruct (uint8 b2) eqn:Ub;
    [| unfold replace_color_with_tolerance, assign_channel, to_uint8 in H;
       rewrite H1, H2 in H; cbn [bind] in H; rewrite Ur in H; cbn [bind] in H;
       rewrite Ug in H; cbn [bind] in H; rewrite Ub in H; discriminate].
  rewrite (replace_as_recolor _ _ _ _ _ _ _ _ H1 H2 Ur Ug Ub) in H.
  inversion H; subst. eauto.
Qed.

Lemma recolor_alpha (tolerance : PrimFloat.float) (c1 c2 : rgb) (p : pixel) :
  alpha (recolor tolerance c1 c2 p) = alpha p.
Proof.
  unfold recolor. destruct (qualifies tolerance c1 p); [| reflexivity].
  destruct c2 as [[r2 g2] b2]. reflexivity.
Qed.

Lemma recolor_rgb (tolerance : PrimFloat.float) (c1 c2 : rgb) (p : pixel) :
  pixel_rgb (recolor tolerance c1 c2 p) =
  if qualifies tolerance c1 p then c2 else pixel_rgb p.
Proof.
  unfold recolor. destruct (qualifies tolerance c1 p); [| reflexivity].
  destruct c2 as [[r2 g2] b2]. reflexivity.
Qed.

(** C2. The image returned has the rows and columns of the input, and the
    alpha of every pixel is the input's, replaced or not. *)
Theorem replace_keeps_shape_and_alpha (image out : Image)
  (color_from color_to : string) (tolerance : PrimFloat.float) :
  replace_color_with_tolerance image color_from color_to tolerance = Ok out ->
  List.length out = List.length image /\
  shape out = shape image /\
  alpha_channel out = alpha_channel image /\
  (forall i j p, pixel_at image i j = Some p ->
     exists q, pixel_at out i j = Some q /\ alpha q = alpha p).
Proof.
  intros H. apply replace_ok_inv in H as (c1 & c2 & _ & _ & ->).
  repeat split.
  - unfold grid_map. apply length_map.
  - unfold shape, grid_map. rewrite map_map. apply map_ext.
    intros row. apply length_map.
  - unfold alpha_channel. rewrite grid_map_map. apply grid_map_ext.
    intros p. apply recolor_alpha.
  - intros i j p Hp. rewrite pixel_at_grid_map, Hp. simpl.
    eexists. split; [reflexivity | apply recolor_alpha].
Qed.

(* ================================================================== *)
(** * Canonical colours and their channels *)
(* ================================================================== *)

Lemma lower_hex_char (c : ascii) :
  is_lower_hex c = true -> exists d, 0 <= d < 16 /\ c = hex_char d.
Proof.
  unfold is_lower_hex, in_range. intros H.
  assert (E : forall v, 0 <= v -> code c = v -> c = ascii_of_N (Z.to_N v)).
  { intros v Hv Hc. rewrite <- Hc. unfold code. rewrite N2Z.id.
    symmetry. apply ascii_N_embedding. }
  apply orb_true_iff in H as [H | H]; apply andb_true_iff in H as [H1 H2];
    apply Z.leb_le in H1, H2.
  - exists (code c - 48). split; [lia |]. unfold hex_char.
    replace (code c - 48 <? 10) with true by (symmetry; apply Z.ltb_lt; lia).
    apply E; lia.
  - exists (code c - 87). split; [lia |]. unfold hex_char.
    replace (code c - 87 <? 10) with false by (symmetry; apply Z.ltb_ge; lia).
    apply E; lia.
Qed.

Lemma digit16_cases (d : Z) :
  0 <= d < 16 ->
  d = 0 \/ d = 1 \/ d = 2 \/ d = 3 \/ d = 4 \/ d = 5 \/ d = 6 \/ d = 7 \/
  d = 8 \/ d = 9 \/ d = 10 \/ d = 11 \/ d = 12 \/ d = 13 \/ d = 14 \/ d = 15.
Proof. lia. Qed.

(** [int(s, 16)] reads back two lowercase digits. *)
Lemma int16_hex_pair (a b : Z) :
  0 <= a < 16 -> 0 <= b < 16 ->
  int16 (String (hex_char a) (String (hex_char b) "")) = Ok (16 * a + b).
Proof.
  intros Ha Hb.
  apply digit16_cases in Ha. apply digit16_cases in Hb.
  repeat (destruct Ha as [-> | Ha]);
    repeat (destruct Hb as [-> | Hb]); subst; reflexivity.
Qed.

(** Decoding the channels undoes the formatting of three bytes. *)
Lemma hex_channels_format_hex (r g b : Z) :
  0 <= r <= 255 -> 0 <= g <= 255 -> 0 <= b <= 255 ->
  hex_channels (format_hex r g b) = Ok (r, g, b).
Proof.
  intros Hr Hg Hb. unfold format_hex.
  rewrite !format_02x_byte by assumption.
  unfold hex_channels, slice. cbn [append substring Nat.sub].
  assert (D : forall v, 0 <= v <= 255 -> 0 <= v / 16 < 16 /\ 0 <= v mod 16 < 16).
  { intros v Hv. split.
    - split; [apply Z.div_pos; lia | apply Z.div_lt_upper_bound; lia].
    - apply Z.mod_pos_bound; lia. }
  destruct (D r Hr), (D g Hg), (D b Hb).
  rewrite !int16_hex_pair by assumption. cbn [bind].
  rewrite <- !Z.div_mod by lia. reflexivity.
Qed.

(** A canonical colour is the formatting of three bytes. *)
Lemma canonical_format_hex (s : string) :
  is_canonical s = true ->
  exists r g b,
    0 <= r <= 255 /\ 0 <= g <= 255 /\ 0 <= b <= 255 /\ s = format_hex r g b.
Proof.
  destruct s as [|c0 s]; cbn [is_canonical]; [discriminate |]. intros H.
  apply andb_true_iff in H as [H Hhex]. apply andb_true_iff in H as [H0 Hlen].
  apply Ascii.eqb_eq in H0; subst c0. apply Nat.eqb_eq in Hlen.
  destruct s as [|c1 [|c2 [|c3 [|c4 [|c5 [|c6 [|c7 s]]]]]]]; try discriminate.
  cbn [all_chars] in Hhex.
  repeat match type of Hhex with
         | (_ && _) = true => apply andb_true_iff in Hhex as [?H Hhex]
         end.
  repeat match goal with
         | H : is_lower_hex _ = true |- _ =>
             apply lower_hex_char in H as (?d & ?Hd & ->)
         end.
  exists (16 * d4 + d3), (16 * d2 + d1), (16 * d0 + d).
  repeat split; try lia. unfold format_hex.
  rewrite !format_02x_byte by lia.
  replace ((16 * d4 + d3) / 16) with d4 by (apply Z.div_unique with d3; lia).
  replace ((16 * d2 + d1) / 16) with d2 by (apply Z.div_unique with d1; lia).
  replace ((16 * d0 + d) / 16) with d0 by (apply Z.div_unique with d; lia).
  replace ((16 * d4 + d3) mod 16) with d3 by (apply Z.mod_unique with d4; lia).
  replace ((16 * d2 + d1) mod 16) with d1 by (apply Z.mod_unique with d2; lia).
  replace ((16 * d0 + d) mod 16) with d by (apply Z.mod_unique with d0; lia).
  reflexivity.
Qed.

(** The channels of a canonical colour are three bytes. *)
Lemma hex_channels_canonical (s : string) :
  is_canonical s = true ->
  exists r g b,
    hex_channels s = Ok (r, g, b) /\
    0 <= r <= 255 /\ 0 <= g <= 255 /\ 0 <= b <= 255.
Proof.
  intros H. destruct (canonical_format_hex s H) as (r & g & b & Hr & Hg & Hb & ->).
  exists r, g, b. repeat split; try lia. now apply hex_channels_format_hex.
Qed.

Lemma uint8_bounds (v : Z) : uint8 v = true <-> 0 <= v <= 255.
Proof. unfold uint8. rewrite andb_true_iff, !Z.leb_le. reflexivity. Qed.

(* ================================================================== *)
(** * The float comparison against exact arithmetic *)
(* ================================================================== *)

Lemma all_from_spec (p : Z -> bool) (n : nat) (lo z : Z) :
  all_from p lo n = true -> lo <= z < lo + Z.of_nat n -> p z = true.
Proof.
  revert lo; induction n as [|k IH]; intros lo H Hz; [lia |].
  cbn [all_from] in H. apply andb_true_iff in H as [H0 H].
  destruct (Z.eq_dec z lo) as [-> | Hne]; [assumption |].
  apply (IH (lo + 1)); [assumption | lia].
Qed.

Lemma zrange_In (n : nat) (lo z : Z) :
  lo <= z < lo + Z.of_nat n -> In z (zrange lo n).
Proof.
  revert lo; induction n as [|k IH]; intros lo Hz; [lia |].
  cbn [zrange]. destruct (Z.eq_dec z lo) as [-> | Hne]; [now left | right].
  apply IH. lia.
Qed.

Lemma all_from_below (p : Z -> bool) (n z : Z) :
  all_from p 0 (Z.to_nat n) = true -> 0 <= z < n -> p z = true.
Proof.
  intros H Hz. apply (all_from_spec p (Z.to_nat n) 0 z H).
  rewrite Z2Nat.id; lia.
Qed.

Lemma sqrt_table_checked : all_from sqrt_row 0 (Z.to_nat 195076) = true.
Proof. vm_compute. reflexivity. Qed.

(** For an integer tolerance, the float64 comparison of the square root is
    the comparison of the squares. *)
Lemma float_sqrt_le_exact (d2 t : Z) :
  0 <= d2 <= 195075 -> 0 <= t <= 100 ->
  PrimFloat.leb (PrimFloat.sqrt (float_of_int d2)) (float_of_int t)
  = (d2 <=? t * t).
Proof.
  intros Hd Ht.
  assert (R : sqrt_row d2 = true).
  { apply (all_from_below sqrt_row 195076 d2); [exact sqrt_table_checked | lia]. }
  unfold sqrt_row in R. rewrite forallb_forall in R.
  apply eqb_prop.
  apply (R (t * t, float_of_int t)). unfold tolerance_table.
  apply (in_map (fun t => (t * t, float_of_int t))). apply zrange_In. lia.
Qed.

(** The real square root against an integer bound. *)
Lemma real_sqrt_le_iff (d2 t : Z) :
  0 <= d2 -> 0 <= t ->
  (R_sqrt.sqrt (IZR d2) <= IZR t)%R <-> d2 <= t * t.
Proof.
  intros Hd Ht.
  assert (Rd : (0 <= IZR d2)%R) by (apply IZR_le; assumption).
  assert (Rt : (0 <= IZR t)%R) by (apply IZR_le; assumption).
  split.
  - intros H. apply le_IZR. rewrite mult_IZR.
    rewrite <- (R_sqrt.sqrt_sqrt (IZR d2)) by assumption.
    apply Rmult_le_compat; auto using R_sqrt.sqrt_pos.
  - intros H. rewrite <- (R_sqrt.sqrt_square (IZR t)) by assumption.
    apply R_sqrt.sqrt_le_1_alt. rewrite <- mult_IZR. apply IZR_le. assumption.
Qed.

Lemma uint8_pixel_bounds (p : pixel) :
  uint8_pixel p = true ->
  0 <= red p <= 255 /\ 0 <= green p <= 255 /\ 0 <= blue p <= 255 /\
  0 <= alpha p <= 255.
Proof.
  unfold uint8_pixel. rewrite !andb_true_iff, !uint8_bounds. tauto.
Qed.

Lemma squared_distance_bounds (p : pixel) (r1 g1 b1 : Z) :
  uint8_pixel p = true ->
  0 <= r1 <= 255 -> 0 <= g1 <= 255 -> 0 <= b1 <= 255 ->
  0 <= squared_distance p (r1, g1, b1) <= 195075.
Proof.
  intros Hp Hr Hg Hb. apply uint8_pixel_bounds in Hp as (Pr & Pg & Pb & _).
  unfold squared_distance. rewrite !Z.pow_2_r.
  assert (S : forall x y, 0 <= x <= 255 -> 0 <= y <= 255 ->
                          0 <= (x - y) * (x - y) <= 65025).
  { intros x y Hx Hy.
    assert (0 <= (255 - (x - y)) * (255 + (x - y)))
      by (apply Z.mul_nonneg_nonneg; lia).
    pose proof (Z.square_nonneg (x - y)). nia. }
  pose proof (S _ _ Pr Hr). pose proof (S _ _ Pg Hg). pose proof (S _ _ Pb Hb).
  lia.
Qed.

(** For byte pixels, a byte colour and an integer tolerance from 0 to 100,
    a pixel qualifies exactly when its Euclidean distance to the colour is at
    most the tolerance and its alpha is positive. *)
Lemma qualifies_exact (p : pixel) (r1 g1 b1 t : Z) :
  uint8_pixel p = true ->
  0 <= r1 <= 255 -> 0 <= g1 <= 255 -> 0 <= b1 <= 255 -> 0 <= t <= 100 ->
  qualifies (float_of_int t) (r1, g1, b1) p = true <->
  (euclidean_distance p (r1, g1, b1) <= IZR t)%R /\ 0 < alpha p.
Proof.
  intros Hp Hr Hg Hb Ht.
  pose proof (squared_distance_bounds p r1 g1 b1 Hp Hr Hg Hb) as Hd.
  unfold qualifies, float_distance, euclidean_distance.
  rewrite float_sqrt_le_exact by assumption.
  rewrite andb_true_iff, Z.leb_le, Z.ltb_lt.
  rewrite real_sqrt_le_iff by lia. reflexivity.
Qed.

Lemma uint8_image_pixel (arr : Image) (i j : nat) (p : pixel) :
  uint8_image arr = true -> pixel_at arr i j = Some p -> uint8_pixel p = true.
Proof.
  intros H Hp. apply pixel_at_In in Hp as (row & Hr & Hp).
  unfold uint8_image in H. rewrite forallb_forall in H.
  specialize (H row Hr). rewrite forallb_forall in H. now apply H.
Qed.

(* ================================================================== *)
(** * Replacement, pixel by pixel *)
(* ================================================================== *)

Lemma qualifies_transparent (tolerance : PrimFloat.float) (c : rgb) (p : pixel) :
  alpha p = 0 -> qualifies tolerance c p = false.
Proof.
  intros H. unfold qualifies. rewrite H. apply andb_false_r.
Qed.

(** C1. For a byte image and canonical colours the call returns an image in
    which a pixel has the colour [color_to] when it qualifies (computed
    distance to [color_from] at most the tolerance, alpha positive) and its
    own colour otherwise; a transparent pixel keeps its colour. For an
    integer tolerance from 0 to 100 qualifying is exact: Euclidean distance
    at most the tolerance, the boundary included, and alpha positive. *)
Theorem replace_exactly_qualifying (image : Image)
  (color_from color_to : string) (tolerance : PrimFloat.float) :
  uint8_image image = true ->
  is_canonical color_from = true -> is_canonical color_to = true ->
  exists c1 c2 out,
    hex_channels color_from = Ok c1 /\ hex_channels color_to = Ok c2 /\
    replace_color_with_tolerance image color_from color_to tolerance = Ok out /\
    forall i j p, pixel_at image i j = Some p ->
      exists q,
        pixel_at out i j = Some q /\
        pixel_rgb q = (if qualifies tolerance c1 p then c2 else pixel_rgb p) /\
        (alpha p = 0 -> pixel_rgb q = pixel_rgb p) /\
        (forall t, 0 <= t <= 100 -> tolerance = float_of_int t ->
           ((euclidean_distance p c1 <= IZR t)%R /\ 0 < alpha p ->
            pixel_rgb q = c2) /\
           (~ ((euclidean_distance p c1 <= IZR t)%R /\ 0 < alpha p) ->
            pixel_rgb q = pixel_rgb p) /\
           (euclidean_distance p c1 = IZR t -> 0 < alpha p ->
            pixel_rgb q = c2)).
Proof.
  intros Himg Hfrom Hto.
  destruct (hex_channels_canonical _ Hfrom) as (r1 & g1 & b1 & H1 & Hr1 & Hg1 & Hb1).
  destruct (hex_channels_canonical _ Hto) as (r2 & g2 & b2 & H2 & Hr2 & Hg2 & Hb2).
  exists (r1, g1, b1), (r2, g2, b2).
  exists (grid_map (recolor tolerance (r1, g1, b1) (r2, g2, b2)) image).
  repeat split; try assumption.
  - apply replace_as_recolor; try assumption; now apply uint8_bounds.
  - intros i j p Hp. exists (recolor tolerance (r1, g1, b1) (r2, g2, b2) p).
    rewrite pixel_at_grid_map, Hp, recolor_rgb.
    split; [reflexivity |]. split; [reflexivity |]. split.
    + intros Ha. now rewrite qualifies_transparent.
    + intros t Ht ->.
      pose proof (uint8_image_pixel _ _ _ _ Himg Hp) as Up.
      pose proof (qualifies_exact p r1 g1 b1 t Up Hr1 Hg1 Hb1 Ht) as Q.
      repeat split.
      * intros Hq. apply Q in Hq. now rewrite Hq.
      * intros Hq. destruct (qualifies _ _ p); [| reflexivity].
        exfalso. apply Hq. now apply Q.
      * intros He Ha.
        assert (Hq : qualifies (float_of_int t) (r1, g1, b1) p = true).
        { apply Q. split; [rewrite He; apply Rle_refl | assumption]. }
        now rewrite Hq.
Qed.

Lemma replace_exactly_qualifying_witness :
  exists out,
    replace_color_with_tolerance scenario_image "#ff0000" "#0000ff"
      (float_of_int 10) = Ok out /\
    (exists q, pixel_at out 1 1 = Some q /\ pixel_rgb q = (0, 0, 255)) /\
    (exists q, pixel_at out 1 0 = Some q /\ pixel_rgb q = (0, 0, 0)) /\
    (exists q, pixel_at out 0 1 = Some q /\ pixel_rgb q = (0, 255, 0)).
Proof.
  destruct (replace_exactly_qualifying scenario_image "#ff0000" "#0000ff"
              (float_of_int 10) eq_refl eq_refl eq_refl)
    as (c1 & c2 & out & H1 & H2 & H & Hp).
  exists out. split; [exact H |].
  assert (E1 : c1 = (255, 0, 0)) by (vm_compute in H1; congruence).
  assert (E2 : c2 = (0, 0, 255)) by (vm_compute in H2; congruence).
  subst c1 c2. repeat split.
  - destruct (Hp 1%nat 1%nat _ eq_refl) as (q & Hq & Hrgb & _).
    exists q. split; [exact Hq | exact Hrgb].
  - destruct (Hp 1%nat 0%nat _ eq_refl) as (q & Hq & Hrgb & _).
    exists q. split; [exact Hq | exact Hrgb].
  - destruct (Hp 0%nat 1%nat _ eq_refl) as (q & Hq & Hrgb & _).
    exists q. split; [exact Hq | exact Hrgb].
Defined.

Lemma replace_keeps_shape_and_alpha_witness :
  shape [[Pixel 0 0 255 255; Pixel 0 255 0 255];
         [Pixel 0 0 0 0; Pixel 0 0 255 255]] = shape scenario_image /\
  alpha_channel [[Pixel 0 0 255 255; Pixel 0 255 0 255];
                 [Pixel 0 0 0 0; Pixel 0 0 255 255]]
  = alpha_channel scenario_image.
Proof.
  destruct (replace_keeps_shape_and_alpha scenario_image
              [[Pixel 0 0 255 255; Pixel 0 255 0 255];
               [Pixel 0 0 0 0; Pixel 0 0 255 255]]
              "#ff0000" "#0000ff" (float_of_int 10) eq_refl)
    as (_ & Hs & Ha & _).
  exact (conj Hs Ha).
Defined.

Lemma recolor_fixed (tolerance : PrimFloat.float) (c : rgb) (p : pixel) :
  recolor tolerance c c p = p <->
  (qualifies tolerance c p = true -> pixel_rgb p = c).
Proof.
  unfold recolor. destruct (qualifies tolerance c p).
  - destruct c as [[r g] b], p as [pr pg pb pa]. unfold pixel_rgb. cbn.
    split.
    + intros H _. inversion H; subst. reflexivity.
    + intros H. specialize (H eq_refl). inversion H; subst. reflexivity.
  - split; [discriminate | reflexivity].
Qed.

Lemma squares_zero (x y z : Z) : x ^ 2 + y ^ 2 + z ^ 2 <= 0 -> x = 0 /\ y = 0 /\ z = 0.
Proof.
  rewrite !Z.pow_2_r. intros H.
  pose proof (Z.square_nonneg x). pose proof (Z.square_nonneg y).
  pose proof (Z.square_nonneg z).
  assert (x * x = 0) by lia. assert (y * y = 0) by lia. assert (z * z = 0) by lia.
  repeat split; nia.
Qed.

(** C3, as the code has it. Replacing a colour by itself returns the input
    unchanged exactly when every qualifying pixel already has that colour;
    this is so for every byte image at tolerance 0. *)
Theorem replace_same_color (image : Image) (color : string)
  (tolerance : PrimFloat.float) :
  is_canonical color = true ->
  exists c,
    hex_channels color = Ok c /\
    (replace_color_with_tolerance image color color tolerance = Ok image <->
     (forall i j p, pixel_at image i j = Some p ->
        qualifies tolerance c p = true -> pixel_rgb p = c)) /\
    (uint8_image image = true ->
     replace_color_with_tolerance image color color (float_of_int 0) = Ok image).
Proof.
  intros Hc.
  destruct (hex_channels_canonical _ Hc) as (r & g & b & H & Hr & Hg & Hb).
  exists (r, g, b). split; [assumption |].
  assert (E : forall tol,
             replace_color_with_tolerance image color color tol =
             Ok (grid_map (recolor tol (r, g, b) (r, g, b)) image)).
  { intros tol. apply replace_as_recolor; try assumption; now apply uint8_bounds. }
  assert (F : forall tol,
             replace_color_with_tolerance image color color tol = Ok image <->
             (forall i j p, pixel_at image i j = Some p ->
                qualifies tol (r, g, b) p = true -> pixel_rgb p = (r, g, b))).
  { intros tol. rewrite E. split.
    - intros H0 i j p Hp. apply recolor_fixed.
      inversion H0 as [H1].
      apply (proj1 (grid_map_fixed _ image) H1 i j p Hp).
    - intros H0. apply f_equal. apply (proj2 (grid_map_fixed _ image)).
      intros i j p Hp. apply recolor_fixed. eauto. }
  split; [apply F |].
  intros Himg. apply F. intros i j p Hp Hq.
  pose proof (uint8_image_pixel _ _ _ _ Himg Hp) as Up.
  pose proof (squared_distance_bounds p r g b Up Hr Hg Hb) as Hd.
  unfold qualifies, float_distance in Hq.
  rewrite float_sqrt_le_exact in Hq by lia.
  apply andb_true_iff in Hq as [Hq _]. apply Z.leb_le in Hq.
  unfold squared_distance in Hq. apply squares_zero in Hq.
  destruct p as [pr pg pb pa]. unfold pixel_rgb. cbn in *.
  f_equal; [f_equal |]; lia.
Qed.

Lemma replace_same_color_witness :
  replace_color_with_tolerance scenario_image "#00ff00" "#00ff00"
    (float_of_int 0) = Ok scenario_image.
Proof.
  destruct (replace_same_color scenario_image "#00ff00" (float_of_int 0) eq_refl)
    as (c & _ & _ & H).
  exact (H eq_refl).
Defined.

(** C3 as stated fails: a pixel near the colour, not of the colour, is
    repainted, so the output differs from the input. *)
Lemma replace_same_color_counterexample :
  replace_color_with_tolerance [[Pixel 250 5 5 255]] "#ff0000" "#ff0000"
    (float_of_int 10) = Ok [[Pixel 255 0 0 255]] /\
  replace_color_with_tolerance [[Pixel 250 5 5 255]] "#ff0000" "#ff0000"
    (float_of_int 10) <> Ok [[Pixel 250 5 5 255]].
Proof.
  split; [reflexivity |]. intros H. vm_compute in H. discriminate H.
Qed.

(* ================================================================== *)
(** * Counting colours *)
(* ================================================================== *)

Lemma rgb_compare_lt (c d : rgb) : rgb_compare c d = Lt <-> rgb_lt c d.
Proof.
  destruct c as [[r g] b], d as [[r' g'] b']. unfold rgb_compare, rgb_lt.
  destruct (Z.compare_spec r r'), (Z.compare_spec g g'), (Z.compare_spec b b');
    split; intros X; try discriminate; try reflexivity; try lia.
Qed.

Lemma rgb_compare_eq (c d : rgb) : rgb_compare c d = Eq <-> c = d.
Proof.
  destruct c as [[r g] b], d as [[r' g'] b']. unfold rgb_compare.
  destruct (Z.compare_spec r r'), (Z.compare_spec g g'), (Z.compare_spec b b');
    split; intros X; try discriminate; try reflexivity;
    try (inversion X; lia); subst; reflexivity.
Qed.

Lemma rgb_compare_gt (c d : rgb) : rgb_compare c d = Gt <-> rgb_lt d c.
Proof.
  destruct c as [[r g] b], d as [[r' g'] b']. unfold rgb_compare, rgb_lt.
  destruct (Z.compare_spec r r'), (Z.compare_spec g g'), (Z.compare_spec b b');
    split; intros X; try discriminate; try reflexivity; try lia.
Qed.

Lemma rgb_lt_trans (c d e : rgb) : rgb_lt c d -> rgb_lt d e -> rgb_lt c e.
Proof.
  destruct c as [[r g] b], d as [[r' g'] b'], e as [[r'' g''] b''].
  unfold rgb_lt. lia.
Qed.

Lemma rgb_lt_irrefl (c : rgb) : ~ rgb_lt c c.
Proof. destruct c as [[r g] b]. unfold rgb_lt. lia. Qed.

Lemma rgb_eqb_eq (c d : rgb) : rgb_eqb c d = true <-> c = d.
Proof.
  unfold rgb_eqb. rewrite <- rgb_compare_eq.
  destruct (rgb_compare c d); split; intros H; congruence.
Qed.

Lemma rgb_eqb_refl (c : rgb) : rgb_eqb c c = true.
Proof. now apply rgb_eqb_eq. Qed.

Lemma rgb_eqb_neq (c d : rgb) : c <> d -> rgb_eqb c d = false.
Proof.
  intros H. destruct (rgb_eqb c d) eqn:E; [| reflexivity].
  apply rgb_eqb_eq in E. contradiction.
Qed.

Lemma count_of_cons (d c : rgb) (rows : list rgb) :
  count_of d (c :: rows) = count_of d rows + (if rgb_eqb d c then 1 else 0).
Proof.
  unfold count_of. cbn [filter]. destruct (rgb_eqb d c); cbn [List.length]; lia.
Qed.

Lemma count_of_notin (c : rgb) (rows : list rgb) :
  ~ In c rows -> count_of c rows = 0.
Proof.
  induction rows as [|d rows IH]; intros H; [reflexivity |].
  rewrite count_of_cons, IH by (intros X; apply H; now right).
  rewrite rgb_eqb_neq; [reflexivity |]. intros ->. apply H. now left.
Qed.

Lemma count_of_pos (c : rgb) (rows : list rgb) :
  In c rows -> 0 < count_of c rows.
Proof.
  induction rows as [|d rows IH]; intros H; [contradiction |].
  rewrite count_of_cons. assert (0 <= count_of c rows) by (unfold count_of; lia).
  destruct H as [-> | H].
  - rewrite rgb_eqb_refl. lia.
  - specialize (IH H). destruct (rgb_eqb c d); lia.
Qed.

Lemma count_insert_keys (c d : rgb) (t : list (rgb * Z)) :
  In d (map fst (count_insert c t)) <-> d = c \/ In d (map fst t).
Proof.
  induction t as [|[k m] t IH]; cbn [count_insert].
  - cbn. intuition.
  - destruct (rgb_compare c k) eqn:E.
    + apply rgb_compare_eq in E; subst k. cbn. intuition.
    + cbn. intuition.
    + cbn [map fst In]. rewrite IH. intuition.
Qed.

Lemma table_sorted_head (k : rgb) (m : Z) (t : list (rgb * Z)) (c : rgb) :
  table_sorted ((k, m) :: t) -> rgb_lt c k \/ c = k -> ~ In c (map fst t).
Proof.
  intros S Hc Hin. apply StronglySorted_inv in S as [_ F].
  rewrite Forall_forall in F. apply in_map_iff in Hin as ([c' n] & E & Hin).
  specialize (F _ Hin). cbn in F, E. subst c'.
  destruct Hc as [Hc | ->].
  - apply (rgb_lt_irrefl c). eapply rgb_lt_trans; eauto.
  - now apply (rgb_lt_irrefl k).
Qed.

Lemma count_insert_sorted (c : rgb) (t : list (rgb * Z)) :
  table_sorted t -> table_sorted (count_insert c t).
Proof.
  unfold table_sorted.
  induction t as [|[k m] t IH]; intros S; cbn [count_insert].
  - repeat constructor.
  - pose proof (StronglySorted_inv S) as [St F].
    destruct (rgb_compare c k) eqn:E.
    + constructor; [assumption |]. exact F.
    + apply rgb_compare_lt in E. constructor; [assumption |].
      constructor; [exact E |].
      rewrite Forall_forall in *. intros x Hx. specialize (F x Hx).
      cbn in *. eapply rgb_lt_trans; eauto.
    + apply rgb_compare_gt in E. constructor; [now apply IH |].
      rewrite Forall_forall in *. intros [d n] Hx. cbn.
      assert (K : In d (map fst (count_insert c t)))
        by (apply in_map_iff; exists (d, n); auto).
      apply count_insert_keys in K as [-> | K]; [assumption |].
      apply in_map_iff in K as ([d' n'] & E' & K). cbn in E'. subst d'.
      exact (F _ K).
Qed.

(** Where an entry of the table comes from after one more occurrence of [c]. *)
Lemma count_insert_entry (c : rgb) (t : list (rgb * Z)) (d : rgb) (n : Z) :
  table_sorted t -> In (d, n) (count_insert c t) ->
  (d = c /\ (In (c, n - 1) t \/ (n = 1 /\ ~ In c (map fst t)))) \/
  (d <> c /\ In (d, n) t).
Proof.
  induction t as [|[k m] t IH]; intros S; cbn [count_insert].
  - intros [H | []]. injection H as <- <-. left. split; [reflexivity |]. right.
    split; [reflexivity | intros []].
  - pose proof (StronglySorted_inv S) as [St F].
    destruct (rgb_compare c k) eqn:E.
    + apply rgb_compare_eq in E; subst k. intros [H | H].
      * injection H as <- <-. left. split; [reflexivity |]. left. left.
        f_equal. lia.
      * right. split; [| now right]. intros ->.
        apply (table_sorted_head c m t c S); [now right |].
        apply in_map_iff. exists (c, n). auto.
    + apply rgb_compare_lt in E. intros [H | H].
      * injection H as <- <-. left. split; [reflexivity |]. right.
        split; [reflexivity |]. cbn [map fst]. intros [X | X].
        -- subst. now apply (rgb_lt_irrefl c).
        -- apply (table_sorted_head k m t c S); [now left | assumption].
      * right. split; [| assumption]. intros ->.
        destruct H as [H | H].
        -- injection H as -> ->. now apply (rgb_lt_irrefl c).
        -- apply (table_sorted_head k m t c S); [now left |].
           apply in_map_iff. exists (c, n). auto.
    + apply rgb_compare_gt in E. intros [H | H].
      * injection H as <- <-. right. split; [| now left].
        intros ->. now apply (rgb_lt_irrefl c).
      * destruct (IH St H) as [[-> [X | [-> X]]] | [X Y]].
        -- left. split; [reflexivity |]. left. now right.
        -- left. split; [reflexivity |]. right. split; [reflexivity |].
           cbn [map fst]. intros [Z | Z]; [| contradiction].
           subst. now apply (rgb_lt_irrefl c).
        -- right. split; [assumption | now right].
Qed.

(** The table [np.unique] builds: increasing rows, the rows of the input and
    no others, each with the number of its occurrences. *)
Lemma unique_table_spec (rows : list rgb) :
  let t := fold_right count_insert [] rows in
  table_sorted t /\
  (forall d, In d (map fst t) <-> In d rows) /\
  (forall d n, In (d, n) t -> n = count_of d rows).
Proof.
  induction rows as [|c rows IH]; cbn [fold_right].
  - repeat split; try constructor; cbn; intros; contradiction.
  - cbv zeta in IH. destruct IH as (S & K & C).
    set (t := fold_right count_insert [] rows) in *.
    split; [now apply count_insert_sorted |]. split.
    + intros d. rewrite count_insert_keys, K. cbn. intuition.
    + intros d n H. rewrite count_of_cons.
      apply count_insert_entry in H as [[-> [X | [-> X]]] | [X Y]];
        try assumption.
      * rewrite rgb_eqb_refl. apply C in X. lia.
      * rewrite rgb_eqb_refl, count_of_notin; [reflexivity |].
        intros Y. apply X. now apply K.
      * rewrite rgb_eqb_neq by assumption. apply C in Y. lia.
Qed.

(** [unique[i]] and [counts[i]] for an index within bounds. *)
Lemma np_unique_nth (rows unique : list rgb) (counts : list Z) (i : nat) :
  np_unique rows = (unique, counts) ->
  (i < List.length counts)%nat ->
  In (nth i unique (0, 0, 0)) rows /\
  nth i counts 0 = count_of (nth i unique (0, 0, 0)) rows.
Proof.
  unfold np_unique. intros H Hi.
  destruct (unique_table_spec rows) as (_ & K & C). cbv zeta in *.
  set (t := fold_right count_insert [] rows) in *.
  assert (Hu : unique = fst (split t)) by (now rewrite H).
  assert (Hc : counts = snd (split t)) by (now rewrite H).
  assert (Hl : (i < List.length t)%nat).
  { rewrite Hc, length_snd_split in Hi. exact Hi. }
  pose proof (nth_In t ((0, 0, 0), 0) Hl) as Hin.
  rewrite (split_nth t i ((0, 0, 0), 0)) in Hin. cbn [fst snd] in Hin.
  rewrite <- Hu, <- Hc in Hin. split.
  - apply K. apply in_map_iff. eexists. split; [| exact Hin]. reflexivity.
  - now apply C.
Qed.

(* ================================================================== *)
(** * Sorted lists *)
(* ================================================================== *)

Lemma StronglySorted_app {A : Type} (R : A -> A -> Prop) (l1 l2 : list A) :
  StronglySorted R l1 -> StronglySorted R l2 ->
  (forall a b, In a l1 -> In b l2 -> R a b) ->
  StronglySorted R (l1 ++ l2).
Proof.
  induction l1 as [|x l1 IH]; intros S1 S2 H; [exact S2 |].
  apply StronglySorted_inv in S1 as [S1 F]. cbn. constructor.
  - apply IH; auto. intros a b Ha Hb. apply H; [now right | assumption].
  - apply Forall_app. split; [assumption |].
    apply Forall_forall. intros b Hb. apply H; [now left | assumption].
Qed.

Lemma StronglySorted_rev {A : Type} (R : A -> A -> Prop) (l : list A) :
  StronglySorted R l -> StronglySorted (fun a b => R b a) (rev l).
Proof.
  induction l as [|x l IH]; intros S; [constructor |].
  apply StronglySorted_inv in S as [S F]. cbn.
  apply StronglySorted_app; [now apply IH | repeat constructor |].
  intros a b Ha [<- | []]. rewrite Forall_forall in F.
  apply F. now apply in_rev.
Qed.

Lemma StronglySorted_skipn {A : Type} (R : A -> A -> Prop) (n : nat) (l : list A) :
  StronglySorted R l -> StronglySorted R (skipn n l).
Proof.
  revert l; induction n as [|n IH]; intros l S; [exact S |].
  destruct l as [|x l]; [constructor |].
  apply StronglySorted_inv in S as [S _]. now apply IH.
Qed.

Lemma StronglySorted_weaken {A : Type} (R R' : A -> A -> Prop) (l : list A) :
  (forall a b, In a l -> In b l -> R a b -> R' a b) ->
  StronglySorted R l -> StronglySorted R' l.
Proof.
  induction l as [|x l IH]; intros H S; [constructor |].
  apply StronglySorted_inv in S as [S F]. constructor.
  - apply IH; [| assumption]. intros a b Ha Hb. apply H; now right.
  - rewrite Forall_forall in *. intros b Hb.
    apply H; [now left | now right | now apply F].
Qed.

Lemma StronglySorted_map {A B : Type} (R : B -> B -> Prop) (f : A -> B)
  (l : list A) :
  StronglySorted (fun a b => R (f a) (f b)) l -> StronglySorted R (map f l).
Proof.
  induction l as [|x l IH]; intros S; [constructor |].
  apply StronglySorted_inv in S as [S F]. cbn. constructor; [now apply IH |].
  rewrite Forall_forall in *. intros b Hb.
  apply in_map_iff in Hb as (a & <- & Ha). now apply F.
Qed.

Lemma last_n_length {A : Type} (n : nat) (l : list A) :
  (List.length (last_n n l) <= n)%nat.
Proof. unfold last_n. rewrite length_skipn. lia. Qed.

Lemma last_n_In {A : Type} (n : nat) (l : list A) (x : A) :
  In x (last_n n l) -> In x l.
Proof.
  unfold last_n. intros H. rewrite <- (firstn_skipn (List.length l - n) l).
  apply in_or_app. now right.
Qed.

(* ================================================================== *)
(** * The stable [argsort] *)
(* ================================================================== *)

Lemma insert_index_perm (l : list Z) (i : nat) (sorted : list nat) :
  Permutation (i :: sorted) (insert_index l i sorted).
Proof.
  induction sorted as [|j rest IH]; cbn [insert_index]; [reflexivity |].
  destruct (nth i l 0 <? nth j l 0); [reflexivity |].
  rewrite perm_swap. now constructor.
Qed.

Lemma insert_index_sorted (l : list Z) (i : nat) (sorted : list nat) :
  StronglySorted (fun a b => nth a l 0 <= nth b l 0) sorted ->
  StronglySorted (fun a b => nth a l 0 <= nth b l 0) (insert_index l i sorted).
Proof.
  induction sorted as [|j rest IH]; intros S; cbn [insert_index].
  - repeat constructor.
  - pose proof (StronglySorted_inv S) as [Sr F].
    destruct (nth i l 0 <? nth j l 0) eqn:E.
    + apply Z.ltb_lt in E. constructor; [assumption |].
      constructor; [lia |]. rewrite Forall_forall in *.
      intros b Hb. specialize (F b Hb). cbn in F. lia.
    + apply Z.ltb_ge in E. constructor; [now apply IH |].
      rewrite Forall_forall in *. intros b Hb.
      apply (Permutation_in _ (Permutation_sym (insert_index_perm l i rest))) in Hb.
      destruct Hb as [<- | Hb]; [assumption | now apply F].
Qed.

Lemma stable_argsort_fold (l : list Z) (indices acc : list nat) :
  StronglySorted (fun a b => nth a l 0 <= nth b l 0) acc ->
  Permutation (fold_left (fun acc i => insert_index l i acc) indices acc)
              (acc ++ indices)%list /\
  StronglySorted (fun a b => nth a l 0 <= nth b l 0)
    (fold_left (fun acc i => insert_index l i acc) indices acc).
Proof.
  revert acc; induction indices as [|i indices IH]; intros acc S; cbn [fold_left].
  - rewrite app_nil_r. split; [reflexivity | assumption].
  - destruct (IH (insert_index l i acc) (insert_index_sorted l i acc S))
      as [P S'].
    split; [| assumption]. rewrite P.
    rewrite <- (insert_index_perm l i acc). apply Permutation_middle.
Qed.

(** The insertion [argsort] is an [argsort]. *)
Lemma stable_argsort_spec : argsort_spec stable_argsort.
Proof.
  intros l. unfold stable_argsort.
  destruct (stable_argsort_fold l (seq 0 (List.length l)) [])
    as [P S]; [constructor |].
  split; assumption.
Qed.

(* ================================================================== *)
(** * [get_colors] *)
(* ================================================================== *)

Lemma select_concat {A B : Type} (f : A -> B) (t : A -> bool) (row : list A) :
  List.concat (map (fun x => if t x then [f x] else []) row) =
  map f (filter t row).
Proof.
  induction row as [|x row IH]; cbn; [reflexivity |].
  destruct (t x); cbn; now rewrite IH.
Qed.

(** [rgb[mask]] holds the colours of the sampled pixels, in order. *)
Lemma rgb_filtered_sampled (arr : Image) :
  boolean_index (rgb_channels arr)
    (grid_map (fun a => 0 <? a) (alpha_channel arr)) =
  map pixel_rgb (sampled arr).
Proof.
  unfold boolean_index, rgb_channels, alpha_channel, sampled.
  rewrite grid_map_map. unfold grid_map. rewrite zip_with_map.
  rewrite <- concat_filter_map, concat_map, map_map. f_equal.
  apply map_ext. intros row. rewrite zip_with_map. apply select_concat.
Qed.

Lemma frequency_count_of (arr : Image) (c : rgb) :
  frequency arr c = count_of c (map pixel_rgb (sampled arr)).
Proof.
  unfold frequency, count_of. f_equal.
  induction (sampled arr) as [|p l IH]; cbn; [reflexivity |].
  destruct (rgb_eqb c (pixel_rgb p)); cbn; now rewrite IH.
Qed.

Lemma sampled_In (arr : Image) (p : pixel) :
  In p (sampled arr) <->
  (exists i j, pixel_at arr i j = Some p) /\ 0 < alpha p.
Proof.
  unfold sampled. rewrite filter_In, Z.ltb_lt, in_concat. split.
  - intros [(row & Hr & Hp) Ha]. split; [| assumption].
    eapply In_pixel_at; eauto.
  - intros [(i & j & H) Ha]. split; [| assumption].
    apply pixel_at_In in H as (row & Hr & Hp). eauto.
Qed.

(** The colours [get_colors] keeps: at most ten, from the most frequent
    down, each one the colour of a sampled pixel. *)
Lemma top_colors_spec (argsort : list Z -> list nat) (arr : Image) :
  argsort_spec argsort ->
  (List.length (top_colors argsort arr) <= 10)%nat /\
  StronglySorted (fun c d => frequency arr d <= frequency arr c)
    (top_colors argsort arr) /\
  Forall (fun c => exists p, In p (sampled arr) /\ pixel_rgb p = c)
    (top_colors argsort arr).
Proof.
  intros Hspec. unfold top_colors. rewrite rgb_filtered_sampled.
  set (rows := map pixel_rgb (sampled arr)).
  destruct (List.length rows =? 0)%nat;
    [repeat split; try constructor; cbn; lia |].
  destruct (np_unique rows) as [unique counts] eqn:U.
  destruct (Hspec counts) as [P S].
  assert (B : forall i, In i (rev (last_n 10 (argsort counts))) ->
                        (i < List.length counts)%nat).
  { intros i Hi. apply in_rev, last_n_In in Hi.
    apply (Permutation_in _ P) in Hi. apply in_seq in Hi. lia. }
  unfold take_rows. repeat split.
  - rewrite length_map, length_rev. apply last_n_length.
  - apply StronglySorted_map.
    apply (StronglySorted_weaken
             (fun i j => nth j counts 0 <= nth i counts 0)).
    + intros i j Hi Hj H. rewrite !frequency_count_of. fold rows.
      destruct (np_unique_nth rows unique counts i U (B i Hi)) as [_ <-].
      destruct (np_unique_nth rows unique counts j U (B j Hj)) as [_ <-].
      exact H.
    + apply StronglySorted_rev. unfold last_n. now apply StronglySorted_skipn.
  - apply Forall_forall. intros c Hc.
    apply in_map_iff in Hc as (i & <- & Hi).
    destruct (np_unique_nth rows unique counts i U (B i Hi)) as [Hin _].
    unfold rows in Hin. apply in_map_iff in Hin as (p & E & Hp). eauto.
Qed.

(** C8. When every pixel of the resized image is fully transparent, the
    palette is the empty list. *)
Theorem get_colors_transparent (resize : Image -> Image)
  (argsort : list Z -> list nat) (image : Image) :
  (forall i j p, pixel_at (resize image) i j = Some p -> alpha p = 0) ->
  get_colors resize argsort image = [].
Proof.
  intros H. unfold get_colors, top_colors. rewrite rgb_filtered_sampled.
  assert (E : sampled (resize image) = []).
  { destruct (sampled (resize image)) as [|p l] eqn:E; [reflexivity |].
    assert (Hp : In p (sampled (resize image))) by (rewrite E; now left).
    apply sampled_In in Hp as [(i & j & Hp) Ha].
    rewrite (H i j p Hp) in Ha. lia. }
  rewrite E. reflexivity.
Qed.

Lemma get_colors_transparent_witness :
  get_colors (fun image => image) stable_argsort
    [[Pixel 10 20 30 0; Pixel 0 0 0 0]] = [].
Proof.
  apply get_colors_transparent. intros i j p H.
  destruct i as [|[|i]]; [| discriminate H | discriminate H].
  destruct j as [|[|[|j]]]; cbn in H; try discriminate H;
    injection H as <-; reflexivity.
Defined.

(** C9. The palette has at most ten entries; they are the formatted colours
    of a list ordered from the most frequent colour among the sampled pixels
    down, and every one is the colour of a sampled pixel, whose alpha is
    positive. *)
Theorem get_colors_ranked (resize : Image -> Image)
  (argsort : list Z -> list nat) (image : Image) :
  argsort_spec argsort ->
  (List.length (get_colors resize argsort image) <= 10)%nat /\
  (exists colors,
      get_colors resize argsort image =
        map (fun c : rgb => let '(r, g, b) := c in format_hex r g b) colors /\
      StronglySorted
        (fun c d => frequency (resize image) d <= frequency (resize image) c)
        colors) /\
  (forall s, In s (get_colors resize argsort image) ->
     exists i j p,
       pixel_at (resize image) i j = Some p /\ 0 < alpha p /\
       s = format_hex (red p) (green p) (blue p)).
Proof.
  intros Hspec.
  destruct (top_colors_spec argsort (resize image) Hspec) as (L & S & F).
  unfold get_colors. repeat split.
  - now rewrite length_map.
  - exists (top_colors argsort (resize image)). split; [reflexivity | exact S].
  - intros s Hs. apply in_map_iff in Hs as (c & <- & Hc).
    rewrite Forall_forall in F. destruct (F c Hc) as (p & Hp & <-).
    apply sampled_In in Hp as [(i & j & Hp) Ha].
    exists i, j, p. repeat split; assumption.
Qed.

Lemma get_colors_ranked_witness :
  (List.length (get_colors (fun image => image) stable_argsort scenario_image)
   <= 10)%nat.
Proof.
  exact (proj1 (get_colors_ranked (fun image => image) stable_argsort
                  scenario_image stable_argsort_spec)).
Defined.

Lemma fst_split_map {A B : Type} (l : list (A * B)) : fst (split l) = map fst l.
Proof.
  induction l as [|[a b] l IH]; cbn; [reflexivity |].
  destruct (split l); cbn in *. now rewrite IH.
Qed.

(** Every colour [get_colors] keeps is the colour of a sampled pixel, or the
    filler of an index out of bounds. *)
Lemma top_colors_from (argsort : list Z -> list nat) (arr : Image) (c : rgb) :
  In c (top_colors argsort arr) ->
  c = (0, 0, 0) \/ exists p, In p (sampled arr) /\ pixel_rgb p = c.
Proof.
  unfold top_colors. rewrite rgb_filtered_sampled.
  set (rows := map pixel_rgb (sampled arr)).
  destruct (List.length rows =? 0)%nat; [intros [] |].
  destruct (np_unique rows) as [unique counts] eqn:U.
  unfold take_rows. intros H. apply in_map_iff in H as (i & <- & _).
  destruct (nth_in_or_default i unique (0, 0, 0)) as [Hin | ->]; [| now left].
  right. unfold np_unique in U.
  assert (Hu : unique = fst (split (fold_right count_insert [] rows)))
    by (now rewrite U).
  rewrite Hu, fst_split_map in Hin.
  destruct (unique_table_spec rows) as (_ & K & _). apply K in Hin.
  unfold rows in Hin. apply in_map_iff in Hin as (p & E & Hp).
  rewrite Hu, fst_split_map. eauto.
Qed.

(** C4, as the code has it. Every string of the palette is a canonical
    colour. A string [parse_color_code] returns is either its argument, of
    seven characters with [#] first and the rest not looked at, or the
    formatting of three integers, which is canonical exactly when all three
    are at most 255. *)
Theorem canonical_outputs (resize : Image -> Image)
  (argsort : list Z -> list nat) (image : Image) :
  uint8_image (resize image) = true ->
  (forall s, In s (get_colors resize argsort image) -> is_canonical s = true) /\
  (forall v out, parse_color_code v = Ok out ->
     (exists s, v = Str s /\ is_hash7 s /\ out = s) \/
     (exists s x1 x2 x3 r g b,
         v = Str s /\ rgb_functional s x1 x2 x3 /\
         int_float x1 = Ok r /\ int_float x2 = Ok g /\ int_float x3 = Ok b /\
         out = format_hex r g b /\
         (is_canonical out = true <-> r <= 255 /\ g <= 255 /\ b <= 255))).
Proof.
  intros Himg. split.
  - intros s Hs. unfold get_colors in Hs.
    apply in_map_iff in Hs as ([[r g] b] & <- & Hc).
    apply top_colors_from in Hc as [E | (p & Hp & E)].
    + inversion E; subst. reflexivity.
    + apply sampled_In in Hp as [(i & j & Hp) _].
      apply (uint8_image_pixel _ _ _ _ Himg) in Hp.
      apply uint8_pixel_bounds in Hp as (Hr & Hg & Hb & _).
      unfold pixel_rgb in E. inversion E; subst.
      now apply format_hex_canonical.
  - intros v out H.
    apply parse_color_code_ok in H
      as [? | (s & x1 & x2 & x3 & r & g & b & Hv & F & E1 & E2 & E3 &
               Hr & Hg & Hb & ->)]; [now left | right].
    exists s, x1, x2, x3, r, g, b. repeat split; auto;
      try (apply (proj1 (format_hex_canonical_iff r g b Hr Hg Hb));
           assumption).
    intros (? & ? & ?). apply format_hex_canonical; lia.
Qed.

Lemma canonical_outputs_witness :
  In "#fa0505" (get_colors (fun image => image) stable_argsort scenario_image) /\
  is_canonical "#fa0505" = true.
Proof.
  assert (H : In "#fa0505"
                (get_colors (fun image => image) stable_argsort scenario_image))
    by (right; left; reflexivity).
  exact (conj H (proj1 (canonical_outputs (fun image => image) stable_argsort
                          scenario_image eq_refl) "#fa0505" H)).
Defined.

(** C4 as stated fails on both grammars of [parse_color_code]: the first
    returns characters that are no hexadecimal digits, the second more than
    seven characters. *)
Lemma canonical_outputs_counterexample :
  parse_color_code (Str "#zzzzzz") = Ok "#zzzzzz" /\
  is_canonical "#zzzzzz" = false /\
  parse_color_code (Str "rgb(256, 0, 0)") = Ok "#1000000" /\
  String.length "#1000000" = 8%nat.
Proof. repeat split. Qed.

(* ================================================================== *)
(** * More on [get_colors] *)
(* ================================================================== *)

Lemma snd_split_map {A B : Type} (l : list (A * B)) : snd (split l) = map snd l.
Proof.
  induction l as [|[a b] l IH]; cbn; [reflexivity |].
  destruct (split l); cbn in *. now rewrite IH.
Qed.

Lemma np_unique_table (rows : list rgb) :
  np_unique rows =
  (map fst (fold_right count_insert [] rows),
   map snd (fold_right count_insert [] rows)).
Proof.
  unfold np_unique. rewrite <- fst_split_map, <- snd_split_map.
  now destruct (split _).
Qed.

Lemma table_sorted_NoDup (t : list (rgb * Z)) :
  table_sorted t -> NoDup (map fst t).
Proof.
  induction t as [|[k m] t IH]; intros S; cbn; constructor.
  - apply (table_sorted_head k m t k S). now right.
  - apply IH. now apply StronglySorted_inv in S.
Qed.

(** The rows of [np.unique]: each colour of the input once. *)
Lemma np_unique_rows (rows unique : list rgb) (counts : list Z) :
  np_unique rows = (unique, counts) ->
  NoDup unique /\ (forall c, In c unique <-> In c rows) /\
  List.length counts = List.length unique.
Proof.
  rewrite np_unique_table. intros H. inversion H; subst.
  destruct (unique_table_spec rows) as (S & K & _). cbv zeta in *.
  repeat split; try apply K.
  - now apply table_sorted_NoDup.
  - now rewrite !length_map.
Qed.

Lemma last_n_length_eq {A : Type} (n : nat) (l : list A) :
  List.length (last_n n l) = Nat.min n (List.length l).
Proof. unfold last_n. rewrite length_skipn. lia. Qed.

Lemma NoDup_skipn {A : Type} (n : nat) (l : list A) :
  NoDup l -> NoDup (skipn n l).
Proof.
  revert l; induction n as [|n IH]; intros l H; [exact H |].
  destruct l as [|x l]; [constructor |]. inversion H; subst. now apply IH.
Qed.

Lemma StronglySorted_app_inv {A : Type} (R : A -> A -> Prop) (l1 l2 : list A) :
  StronglySorted R (l1 ++ l2) ->
  forall a b, In a l1 -> In b l2 -> R a b.
Proof.
  induction l1 as [|x l1 IH]; intros S a b Ha Hb; [contradiction |].
  cbn in S. apply StronglySorted_inv in S as [S F].
  destruct Ha as [<- | Ha]; [| now apply IH].
  rewrite Forall_forall in F. apply F. apply in_or_app. now right.
Qed.

(** The indices [get_colors] keeps: distinct, within bounds, the last ten of
    the sorted ones; every other index has a count no larger than theirs. *)
Lemma top_indices_spec (argsort : list Z -> list nat) (counts : list Z) :
  argsort_spec argsort ->
  let top := rev (last_n 10 (argsort counts)) in
  NoDup top /\
  List.length top = Nat.min 10 (List.length counts) /\
  (forall i, In i top -> (i < List.length counts)%nat) /\
  (forall i j, In i top -> (j < List.length counts)%nat -> ~ In j top ->
     nth j counts 0 <= nth i counts 0).
Proof.
  intros Hspec top. destruct (Hspec counts) as [P S].
  assert (N : NoDup (argsort counts)).
  { apply (Permutation_NoDup (Permutation_sym P)). apply seq_NoDup. }
  assert (L : List.length (argsort counts) = List.length counts).
  { rewrite (Permutation_length P). apply length_seq. }
  unfold top. repeat split.
  - apply NoDup_rev. unfold last_n. now apply NoDup_skipn.
  - now rewrite length_rev, last_n_length_eq, L.
  - intros i Hi. apply in_rev, last_n_In in Hi.
    apply (Permutation_in _ P) in Hi. apply in_seq in Hi. lia.
  - intros i j Hi Hj Hn. apply in_rev in Hi.
    assert (Hj' : In j (argsort counts)).
    { apply (Permutation_in _ (Permutation_sym P)). apply in_seq. lia. }
    unfold last_n in *.
    rewrite <- (firstn_skipn (List.length (argsort counts) - 10)) in Hj', S.
    apply in_app_or in Hj' as [Hj' | Hj'].
    + exact (StronglySorted_app_inv _ _ _ S j i Hj' Hi).
    + exfalso. apply Hn. now apply in_rev in Hj'.
Qed.

Lemma top_colors_unfold (argsort : list Z -> list nat) (arr : Image) :
  let rows := map pixel_rgb (sampled arr) in
  top_colors argsort arr =
  if (List.length rows =? 0)%nat then []
  else take_rows (fst (np_unique rows))
         (rev (last_n 10 (argsort (snd (np_unique rows))))).
Proof.
  cbv zeta. unfold top_colors. rewrite rgb_filtered_sampled.
  destruct (_ =? _)%nat; [reflexivity |]. now destruct (np_unique _).
Qed.

Lemma rows_empty_unique (rows : list rgb) :
  rows = [] <-> fst (np_unique rows) = [].
Proof.
  destruct (np_unique rows) as [unique counts] eqn:U.
  destruct (np_unique_rows _ _ _ U) as (_ & K & _). cbn. split.
  - intros ->. destruct unique as [|c u]; [reflexivity |].
    exfalso. apply (K c). now left.
  - intros ->. destruct rows as [|c r]; [reflexivity |].
    exfalso. apply (K c). now left.
Qed.

Lemma NoDup_map_in {A B : Type} (f : A -> B) (l : list A) :
  (forall x y, In x l -> In y l -> f x = f y -> x = y) ->
  NoDup l -> NoDup (map f l).
Proof.
  induction l as [|a l IH]; intros Hinj N; cbn; constructor.
  - inversion N; subst. intros H. apply in_map_iff in H as (y & E & Hy).
    assert (y = a) by (apply Hinj; [now right | now left | assumption]).
    subst. contradiction.
  - inversion N; subst. apply IH; [| assumption].
    intros x y Hx Hy. apply Hinj; now right.
Qed.

(** The colours kept, with the table they are taken from. *)
Lemma top_colors_table (argsort : list Z -> list nat) (arr : Image) :
  argsort_spec argsort ->
  exists unique : list rgb,
    NoDup unique /\
    (forall c, In c unique <->
               exists p, In p (sampled arr) /\ pixel_rgb p = c) /\
    NoDup (top_colors argsort arr) /\
    List.length (top_colors argsort arr) = Nat.min 10 (List.length unique) /\
    (forall c, In c (top_colors argsort arr) -> In c unique) /\
    (forall c d, In c (top_colors argsort arr) -> In d unique ->
       ~ In d (top_colors argsort arr) -> frequency arr d <= frequency arr c).
Proof.
  intros Hspec. pose proof (top_colors_unfold argsort arr) as E. cbv zeta in E.
  set (rows := map pixel_rgb (sampled arr)) in *.
  destruct (np_unique rows) as [unique counts] eqn:U. cbn [fst snd] in E.
  destruct (np_unique_rows _ _ _ U) as (N & K & L).
  destruct (top_indices_spec argsort counts Hspec) as (Ni & Li & Bi & Mi).
  cbv zeta in *. set (top := rev (last_n 10 (argsort counts))) in *.
  assert (Hrows : forall c, In c rows <->
                            exists p, In p (sampled arr) /\ pixel_rgb p = c).
  { intros c. unfold rows. rewrite in_map_iff. split; intros (p & A & B); eauto. }
  exists unique. split; [assumption |]. split.
  { intros c. rewrite K. apply Hrows. }
  destruct (List.length rows =? 0)%nat eqn:Z.
  - apply Nat.eqb_eq, length_zero_iff_nil in Z.
    assert (unique = []).
    { pose proof (proj1 (rows_empty_unique rows) Z) as X. now rewrite U in X. }
    subst unique. rewrite E. cbn. repeat split; try constructor; contradiction.
  - rewrite E. unfold take_rows. repeat split.
    + apply NoDup_map_in; [| assumption]. intros i j Hi Hj.
      apply (proj1 (NoDup_nth unique (0, 0, 0)) N);
        rewrite <- L; now apply Bi.
    + now rewrite length_map, Li, L.
    + intros c Hc. apply in_map_iff in Hc as (i & <- & Hi).
      apply nth_In. rewrite <- L. now apply Bi.
    + intros c d Hc Hd Hn. apply in_map_iff in Hc as (i & <- & Hi).
      destruct (In_nth unique d (0, 0, 0) Hd) as (j & Hj & <-).
      rewrite <- L in Hj. rewrite !frequency_count_of. fold rows.
      destruct (np_unique_nth rows unique counts i U (Bi i Hi)) as [_ <-].
      destruct (np_unique_nth rows unique counts j U Hj) as [_ <-].
      apply Mi; try assumption. intros Hj'. apply Hn.
      apply in_map_iff. now exists j.
Qed.

Lemma format_hex_inj (c d : rgb) :
  (let '(r, g, b) := c in 0 <= r <= 255 /\ 0 <= g <= 255 /\ 0 <= b <= 255) ->
  (let '(r, g, b) := d in 0 <= r <= 255 /\ 0 <= g <= 255 /\ 0 <= b <= 255) ->
  (let '(r, g, b) := c in format_hex r g b) =
  (let '(r, g, b) := d in format_hex r g b) ->
  c = d.
Proof.
  destruct c as [[r g] b], d as [[r' g'] b'].
  intros (Hr & Hg & Hb) (Hr' & Hg' & Hb') E.
  pose proof (hex_channels_format_hex r g b Hr Hg Hb) as H1.
  pose proof (hex_channels_format_hex r' g' b' Hr' Hg' Hb') as H2.
  rewrite E in H1. congruence.
Qed.

Lemma sampled_rgb_bytes (arr : Image) (p : pixel) :
  uint8_image arr = true -> In p (sampled arr) ->
  0 <= red p <= 255 /\ 0 <= green p <= 255 /\ 0 <= blue p <= 255.
Proof.
  intros Himg Hp. apply sampled_In in Hp as [(i & j & Hp) _].
  apply (uint8_image_pixel _ _ _ _ Himg) in Hp.
  apply uint8_pixel_bounds in Hp. tauto.
Qed.

(** X1. The strings of the palette are pairwise distinct. *)
Theorem get_colors_distinct (resize : Image -> Image)
  (argsort : list Z -> list nat) (image : Image) :
  argsort_spec argsort -> uint8_image (resize image) = true ->
  NoDup (get_colors resize argsort image).
Proof.
  intros Hspec Himg.
  destruct (top_colors_table argsort (resize image) Hspec)
    as (unique & _ & K & N & _ & Hin & _).
  unfold get_colors. apply NoDup_map_in; [| assumption].
  assert (B : forall c, In c (top_colors argsort (resize image)) ->
                let '(r, g, b) := c in
                0 <= r <= 255 /\ 0 <= g <= 255 /\ 0 <= b <= 255).
  { intros c Hc. apply Hin, K in Hc as (p & Hp & <-).
    exact (sampled_rgb_bytes _ _ Himg Hp). }
  intros c d Hc Hd E. exact (format_hex_inj c d (B c Hc) (B d Hd) E).
Qed.

Lemma get_colors_distinct_witness :
  NoDup (get_colors (fun image => image) stable_argsort scenario_image).
Proof.
  exact (get_colors_distinct (fun image => image) stable_argsort
           scenario_image stable_argsort_spec eq_refl).
Defined.

(** X2. The palette has ten entries, or as many as there are distinct colours
    among the sampled pixels when these are fewer. *)
Theorem get_colors_length (resize : Image -> Image)
  (argsort : list Z -> list nat) (image : Image) :
  argsort_spec argsort ->
  exists distinct : list rgb,
    NoDup distinct /\
    (forall c, In c distinct <->
       exists p, In p (sampled (resize image)) /\ pixel_rgb p = c) /\
    List.length (get_colors resize argsort image) =
      Nat.min 10 (List.length distinct).
Proof.
  intros Hspec.
  destruct (top_colors_table argsort (resize image) Hspec)
    as (unique & N & K & _ & L & _).
  exists unique. repeat split; try apply K; try assumption.
  unfold get_colors. now rewrite length_map.
Qed.

Lemma get_colors_length_witness :
  exists distinct : list rgb,
    NoDup distinct /\
    (forall c, In c distinct <->
       exists p, In p (sampled scenario_image) /\ pixel_rgb p = c) /\
    List.length (get_colors (fun image => image) stable_argsort scenario_image)
    = Nat.min 10 (List.length distinct).
Proof.
  exact (get_colors_length (fun image => image) stable_argsort scenario_image
           stable_argsort_spec).
Defined.

(** X3. The palette holds the most frequent colours: a sampled pixel whose
    colour is not in the palette has a colour no more frequent than any
    colour of the palette. *)
Theorem get_colors_most_frequent (resize : Image -> Image)
  (argsort : list Z -> list nat) (image : Image) (s : string) (p : pixel) :
  argsort_spec argsort ->
  In s (get_colors resize argsort image) ->
  In p (sampled (resize image)) ->
  ~ In (format_hex (red p) (green p) (blue p))
       (get_colors resize argsort image) ->
  exists q,
    In q (sampled (resize image)) /\
    s = format_hex (red q) (green q) (blue q) /\
    frequency (resize image) (pixel_rgb p)
    <= frequency (resize image) (pixel_rgb q).
Proof.
  intros Hspec Hs Hp Hn.
  destruct (top_colors_table argsort (resize image) Hspec)
    as (unique & _ & K & _ & _ & Hin & M).
  unfold get_colors in Hs, Hn.
  apply in_map_iff in Hs as (c & <- & Hc).
  destruct (proj1 (K c) (Hin c Hc)) as (q & Hq & <-).
  exists q. repeat split; try assumption.
  apply M; try assumption.
  - apply K. eauto.
  - intros H. apply Hn. apply in_map_iff. exists (pixel_rgb p). auto.
Qed.

Lemma get_colors_most_frequent_witness :
  exists q,
    In q (sampled eleven_colors) /\
    "#0a0a0a" = format_hex (red q) (green q) (blue q) /\
    frequency eleven_colors (pixel_rgb (Pixel 0 0 0 255))
    <= frequency eleven_colors (pixel_rgb q).
Proof.
  apply (get_colors_most_frequent (fun image => image) stable_argsort
           eleven_colors "#0a0a0a" (Pixel 0 0 0 255) stable_argsort_spec).
  - vm_compute. tauto.
  - left. reflexivity.
  - intros H. vm_compute in H.
    repeat (destruct H as [H | H]; [discriminate H |]). exact H.
Defined.

(* ================================================================== *)
(** * [extract_and_return_choices] *)
(* ================================================================== *)

Lemma get_colors_nil_iff (resize : Image -> Image)
  (argsort : list Z -> list nat) (image : Image) :
  argsort_spec argsort ->
  get_colors resize argsort image = [] <-> sampled (resize image) = [].
Proof.
  intros Hspec.
  destruct (top_colors_table argsort (resize image) Hspec)
    as (unique & _ & K & _ & L & _).
  unfold get_colors. split.
  - intros H. apply (f_equal (@List.length string)) in H.
    rewrite length_map, L in H. cbn in H.
    destruct (sampled (resize image)) as [|p l]; [reflexivity |].
    assert (In (pixel_rgb p) unique) by (apply K; exists p; split; [now left | reflexivity]).
    destruct unique; [contradiction | cbn in H; lia].
  - intros H. rewrite top_colors_unfold. cbv zeta. rewrite H. reflexivity.
Qed.

(** X4. The warning is returned, with no choice and no selection, exactly
    when no pixel of the resized image has a positive alpha; otherwise the
    choices are the palette and the selection is its first entry. *)
Theorem extract_and_return_choices_warning (resize : Image -> Image)
  (argsort : list Z -> list nat) (image : Image) :
  argsort_spec argsort ->
  (extract_and_return_choices resize argsort image =
     ({| choices := []; selected := None |}, no_colors_warning) <->
   forall i j p, pixel_at (resize image) i j = Some p -> alpha p <= 0) /\
  (forall p, In p (sampled (resize image)) ->
     exists first rest,
       get_colors resize argsort image = first :: rest /\
       extract_and_return_choices resize argsort image =
         ({| choices := first :: rest; selected := Some first |},
          String.concat ", " (first :: rest))).
Proof.
  intros Hspec. pose proof (get_colors_nil_iff resize argsort image Hspec) as N.
  assert (S : sampled (resize image) = [] <->
              forall i j p, pixel_at (resize image) i j = Some p -> alpha p <= 0).
  { split.
    - intros E i j p Hp. destruct (Z_le_gt_dec (alpha p) 0) as [|G]; [assumption |].
      assert (X : In p (sampled (resize image)))
        by (apply sampled_In; split; [eauto | lia]).
      rewrite E in X. contradiction.
    - intros H. destruct (sampled (resize image)) as [|p l] eqn:E; [reflexivity |].
      assert (X : In p (sampled (resize image))) by (rewrite E; now left).
      apply sampled_In in X as [(i & j & Hp) Ha]. specialize (H i j p Hp). lia. }
  unfold extract_and_return_choices. split.
  - rewrite <- S, <- N.
    destruct (get_colors resize argsort image) as [|first rest].
    + split; reflexivity.
    + split; intros H; discriminate H.
  - intros p Hp.
    destruct (get_colors resize argsort image) as [|first rest] eqn:E.
    + rewrite (proj1 N eq_refl) in Hp. contradiction.
    + exists first, rest. split; reflexivity.
Qed.

Lemma extract_and_return_choices_warning_witness :
  extract_and_return_choices (fun image => image) stable_argsort
    [[Pixel 10 20 30 0]] =
  ({| choices := []; selected := None |}, no_colors_warning).
Proof.
  apply (proj1 (extract_and_return_choices_warning (fun image => image)
                  stable_argsort [[Pixel 10 20 30 0]] stable_argsort_spec)).
  intros i j p H.
  destruct i as [|i]; [| destruct i; discriminate H].
  destruct j as [|j]; [| destruct j; discriminate H].
  injection H as <-. cbn. lia.
Defined.

Lemma rgb_eq_dec (c d : rgb) : {c = d} + {c <> d}.
Proof. repeat decide equality. Qed.

(** X5. The colour selected by default is a most frequent one: no sampled
    pixel has a colour more frequent than it. *)
Theorem extract_and_return_choices_default (resize : Image -> Image)
  (argsort : list Z -> list nat) (image : Image) (s : string) :
  argsort_spec argsort ->
  selected (fst (extract_and_return_choices resize argsort image)) = Some s ->
  exists q,
    In q (sampled (resize image)) /\
    s = format_hex (red q) (green q) (blue q) /\
    forall p, In p (sampled (resize image)) ->
      frequency (resize image) (pixel_rgb p)
      <= frequency (resize image) (pixel_rgb q).
Proof.
  intros Hspec H.
  destruct (top_colors_table argsort (resize image) Hspec)
    as (unique & _ & K & _ & _ & Hin & M).
  destruct (top_colors_spec argsort (resize image) Hspec) as (_ & S & _).
  unfold extract_and_return_choices, get_colors in H.
  destruct (top_colors argsort (resize image)) as [|c cs] eqn:E;
    [discriminate H |].
  cbn in H. injection H as <-.
  destruct (proj1 (K c) (Hin c (or_introl eq_refl))) as (q & Hq & <-).
  exists q. repeat split; try assumption.
  intros p Hp. apply StronglySorted_inv in S as [_ F].
  rewrite Forall_forall in F.
  destruct (in_dec rgb_eq_dec (pixel_rgb p) (pixel_rgb q :: cs))
    as [[Y | Y] | Y].
  - rewrite Y. lia.
  - now apply F.
  - apply M; [now left | apply K; eauto | assumption].
Qed.

Lemma extract_and_return_choices_default_witness :
  exists q,
    In q (sampled eleven_colors) /\
    "#0a0a0a" = format_hex (red q) (green q) (blue q) /\
    forall p, In p (sampled eleven_colors) ->
      frequency eleven_colors (pixel_rgb p)
      <= frequency eleven_colors (pixel_rgb q).
Proof.
  exact (extract_and_return_choices_default (fun image => image)
           stable_argsort eleven_colors "#0a0a0a" stable_argsort_spec eq_refl).
Defined.

(* ================================================================== *)
(** * More on [replace_color_with_tolerance] *)
(* ================================================================== *)

(** Whenever the call returns, the colour stored fits in a byte. *)
Lemma replace_ok_bytes (image out : Image) (color_from color_to : string)
  (tolerance : PrimFloat.float) :
  replace_color_with_tolerance image color_from color_to tolerance = Ok out ->
  exists c1 r2 g2 b2,
    hex_channels color_from = Ok c1 /\ hex_channels color_to = Ok (r2, g2, b2) /\
    uint8 r2 = true /\ uint8 g2 = true /\ uint8 b2 = true /\
    out = grid_map (recolor tolerance c1 (r2, g2, b2)) image.
Proof.
  intros H. pose proof H as H0. unfold replace_color_with_tolerance in H0.
  destruct (hex_channels color_from) as [c1|e1] eqn:H1; [| discriminate H0].
  destruct (hex_channels color_to) as [[[r2 g2] b2]|e2] eqn:H2;
    [| discriminate H0].
  cbn [bind] in H0. unfold assign_channel, to_uint8 in H0.
  destruct (uint8 r2) eqn:Ur; [| discriminate H0]. cbn [bind] in H0.
  destruct (uint8 g2) eqn:Ug; [| discriminate H0]. cbn [bind] in H0.
  destruct (uint8 b2) eqn:Ub; [| discriminate H0].
  exists c1, r2, g2, b2. repeat split; try assumption.
  rewrite (replace_as_recolor _ _ _ _ _ _ _ _ H1 H2 Ur Ug Ub) in H.
  now inversion H.
Qed.

Lemma recolor_idempotent (tolerance : PrimFloat.float) (c1 c2 : rgb) (p : pixel) :
  recolor tolerance c1 c2 (recolor tolerance c1 c2 p) = recolor tolerance c1 c2 p.
Proof.
  unfold recolor. destruct (qualifies tolerance c1 p) eqn:Q.
  - destruct c2 as [[r2 g2] b2].
    match goal with
    | |- context [qualifies tolerance c1 ?x] =>
        destruct (qualifies tolerance c1 x)
    end; reflexivity.
  - now rewrite Q.
Qed.

(** X6. Replacement is idempotent: applied to its own result with the same
    colours and tolerance, it returns that result again. *)
Theorem replace_idempotent (image out : Image) (color_from color_to : string)
  (tolerance : PrimFloat.float) :
  replace_color_with_tolerance image color_from color_to tolerance = Ok out ->
  replace_color_with_tolerance out color_from color_to tolerance = Ok out.
Proof.
  intros H.
  apply replace_ok_bytes in H
    as (c1 & r2 & g2 & b2 & H1 & H2 & Ur & Ug & Ub & ->).
  rewrite (replace_as_recolor _ _ _ _ _ _ _ _ H1 H2 Ur Ug Ub).
  apply f_equal. rewrite grid_map_map. apply grid_map_ext.
  intros p. apply recolor_idempotent.
Qed.

Lemma replace_idempotent_witness :
  replace_color_with_tolerance
    [[Pixel 0 0 255 255; Pixel 0 255 0 255];
     [Pixel 0 0 0 0; Pixel 0 0 255 255]]
    "#ff0000" "#0000ff" (float_of_int 10)
  = Ok [[Pixel 0 0 255 255; Pixel 0 255 0 255];
        [Pixel 0 0 0 0; Pixel 0 0 255 255]].
Proof.
  exact (replace_idempotent scenario_image _ "#ff0000" "#0000ff"
           (float_of_int 10) eq_refl).
Defined.

Lemma qualifies_squares (p : pixel) (r1 g1 b1 t : Z) :
  uint8_pixel p = true ->
  0 <= r1 <= 255 -> 0 <= g1 <= 255 -> 0 <= b1 <= 255 -> 0 <= t <= 100 ->
  qualifies (float_of_int t) (r1, g1, b1) p =
  (squared_distance p (r1, g1, b1) <=? t * t) && (0 <? alpha p).
Proof.
  intros Hp Hr Hg Hb Ht.
  pose proof (squared_distance_bounds p r1 g1 b1 Hp Hr Hg Hb) as Hd.
  unfold qualifies, float_distance. now rewrite float_sqrt_le_exact.
Qed.

(** X7. A larger tolerance changes more: a pixel that the call leaves as it
    is at tolerance [t2] is also left as it is at any smaller tolerance. *)
Theorem replace_tolerance_monotone (image : Image)
  (color_from color_to : string) (t1 t2 : Z) :
  uint8_image image = true ->
  is_canonical color_from = true -> is_canonical color_to = true ->
  0 <= t1 <= t2 -> t2 <= 100 ->
  exists out1 out2,
    replace_color_with_tolerance image color_from color_to (float_of_int t1)
      = Ok out1 /\
    replace_color_with_tolerance image color_from color_to (float_of_int t2)
      = Ok out2 /\
    forall i j, pixel_at out2 i j = pixel_at image i j ->
                pixel_at out1 i j = pixel_at image i j.
Proof.
  intros Himg Hfrom Hto Ht Ht2.
  destruct (hex_channels_canonical _ Hfrom) as (r1 & g1 & b1 & H1 & Hr1 & Hg1 & Hb1).
  destruct (hex_channels_canonical _ Hto) as (r2 & g2 & b2 & H2 & Hr2 & Hg2 & Hb2).
  assert (E : forall tol,
             replace_color_with_tolerance image color_from color_to tol =
             Ok (grid_map (recolor tol (r1, g1, b1) (r2, g2, b2)) image)).
  { intros tol. apply replace_as_recolor; try assumption; now apply uint8_bounds. }
  do 2 eexists. split; [apply E |]. split; [apply E |].
  intros i j. rewrite !pixel_at_grid_map.
  destruct (pixel_at image i j) as [p|] eqn:Hp; [| reflexivity].
  cbn [option_map]. intros H. injection H as H. f_equal.
  pose proof (uint8_image_pixel _ _ _ _ Himg Hp) as Up.
  unfold recolor in *.
  rewrite (qualifies_squares p r1 g1 b1 t1) by (assumption || lia).
  rewrite (qualifies_squares p r1 g1 b1 t2) in H by (assumption || lia).
  destruct (0 <? alpha p); [| now rewrite andb_false_r].
  rewrite andb_true_r in *.
  destruct (squared_distance p (r1, g1, b1) <=? t1 * t1) eqn:Q1; [| reflexivity].
  apply Z.leb_le in Q1.
  replace (squared_distance p (r1, g1, b1) <=? t2 * t2) with true in H;
    [exact H |].
  symmetry. apply Z.leb_le. nia.
Qed.

Lemma replace_tolerance_monotone_witness :
  exists out1 out2,
    replace_color_with_tolerance scenario_image "#ff0000" "#0000ff"
      (float_of_int 5) = Ok out1 /\
    replace_color_with_tolerance scenario_image "#ff0000" "#0000ff"
      (float_of_int 10) = Ok out2 /\
    forall i j, pixel_at out2 i j = pixel_at scenario_image i j ->
                pixel_at out1 i j = pixel_at scenario_image i j.
Proof.
  apply (replace_tolerance_monotone scenario_image "#ff0000" "#0000ff" 5 10);
    try reflexivity; lia.
Defined.

(** X8. At tolerance 0 replacement is an exact match: a pixel takes the new
    colour when its colour is [color_from] and its alpha is positive, and is
    left as it is otherwise. *)
Theorem replace_tolerance_zero (image : Image) (color_from color_to : string) :
  uint8_image image = true ->
  is_canonical color_from = true -> is_canonical color_to = true ->
  exists c1 c2 out,
    hex_channels color_from = Ok c1 /\ hex_channels color_to = Ok c2 /\
    replace_color_with_tolerance image color_from color_to (float_of_int 0)
      = Ok out /\
    forall i j p, pixel_at image i j = Some p ->
      exists q,
        pixel_at out i j = Some q /\
        (pixel_rgb p = c1 /\ 0 < alpha p ->
         pixel_rgb q = c2 /\ alpha q = alpha p) /\
        (~ (pixel_rgb p = c1 /\ 0 < alpha p) -> q = p).
Proof.
  intros Himg Hfrom Hto.
  destruct (hex_channels_canonical _ Hfrom) as (r1 & g1 & b1 & H1 & Hr1 & Hg1 & Hb1).
  destruct (hex_channels_canonical _ Hto) as (r2 & g2 & b2 & H2 & Hr2 & Hg2 & Hb2).
  exists (r1, g1, b1), (r2, g2, b2).
  exists (grid_map (recolor (float_of_int 0) (r1, g1, b1) (r2, g2, b2)) image).
  repeat split; try assumption.
  - apply replace_as_recolor; try assumption; now apply uint8_bounds.
  - intros i j p Hp. eexists. rewrite pixel_at_grid_map, Hp.
    split; [reflexivity |].
    pose proof (uint8_image_pixel _ _ _ _ Himg Hp) as Up.
    assert (Q : qualifies (float_of_int 0) (r1, g1, b1) p = true <->
                pixel_rgb p = (r1, g1, b1) /\ 0 < alpha p).
    { rewrite qualifies_squares by (assumption || lia).
      rewrite andb_true_iff, Z.leb_le, Z.ltb_lt.
      destruct p as [pr pg pb pa]. unfold squared_distance, pixel_rgb. cbn.
      split.
      - intros [D A]. split; [| assumption].
        apply squares_zero in D as (? & ? & ?).
        f_equal; [f_equal |]; lia.
      - intros [D A]. split; [| assumption].
        inversion D; subst. rewrite !Z.sub_diag. cbn. lia. }
    split.
    + intros Hq. apply Q in Hq. rewrite recolor_rgb, recolor_alpha, Hq. auto.
    + intros Hq. unfold recolor.
      destruct (qualifies _ _ p); [| reflexivity].
      exfalso. apply Hq. now apply Q.
Qed.

Lemma replace_tolerance_zero_witness :
  exists c1 c2 out,
    hex_channels "#00ff00" = Ok c1 /\ hex_channels "#123456" = Ok c2 /\
    replace_color_with_tolerance scenario_image "#00ff00" "#123456"
      (float_of_int 0) = Ok out /\
    forall i j p, pixel_at scenario_image i j = Some p ->
      exists q,
        pixel_at out i j = Some q /\
        (pixel_rgb p = c1 /\ 0 < alpha p ->
         pixel_rgb q = c2 /\ alpha q = alpha p) /\
        (~ (pixel_rgb p = c1 /\ 0 < alpha p) -> q = p).
Proof.
  exact (replace_tolerance_zero scenario_image "#00ff00" "#123456"
           eq_refl eq_refl eq_refl).
Defined.

(* ================================================================== *)
(** * More on [parse_color_code] *)
(* ================================================================== *)

Lemma round_half_even_one (n : Z) : round_half_even n 1 = n.
Proof.
  unfold round_half_even. rewrite Z.div_1_r, Z.mod_1_r. reflexivity.
Qed.

Lemma round_half_even_range (num den : Z) :
  0 < den ->
  num / den <= round_half_even num den <= num / den + 1.
Proof.
  intros _. unfold round_half_even. cbv zeta.
  repeat match goal with |- context [if ?b then _ else _] => destruct b end; lia.
Qed.

Lemma py_float_integer (x : string) :
  x <> "" -> all_chars is_digit x = true ->
  py_float x = Ok (float_of_ratio (digits_value 0 x) 1).
Proof.
  intros Hne Hx. unfold py_float.
  pose proof (span_append is_digit x "" Hx I) as Hs.
  rewrite append_empty_r in Hs. rewrite Hs.
  destruct x; [congruence | reflexivity].
Qed.

Lemma py_float_decimal (ip fp : string) :
  ip <> "" -> all_chars is_digit ip = true -> all_chars is_digit fp = true ->
  py_float (ip ++ String "." fp) =
  Ok (float_of_ratio (digits_value 0 (ip ++ fp))
                     (10 ^ Z.of_nat (String.length fp))).
Proof.
  intros Hne Hip Hfp. unfold py_float.
  rewrite span_append by (simpl; auto).
  destruct ip; [congruence |]. rewrite Hfp. reflexivity.
Qed.

(** The exponent chosen for a ratio below [2^53] is not positive. *)
Lemma float_of_ratio_small (n d : Z) :
  0 < n -> 0 < d -> n < d * 2 ^ 53 ->
  exists e,
    -1074 <= e <= 0 /\
    float_of_ratio n d =
    Finite (if 0 <=? e then round_half_even n (d * 2 ^ e)
            else round_half_even (n * 2 ^ (- e)) d) e.
Proof.
  intros Hn Hd Hlt. unfold float_of_ratio.
  replace (n =? 0) with false by (symmetry; apply Z.eqb_neq; lia).
  cbv zeta.
  set (l := Z.log2 n - Z.log2 d).
  set (fl := if pow2_le_ratio l n d then l else l - 1).
  assert (Hl : l <= 53).
  { assert (Z.log2 n < Z.log2 d + 54); [| unfold l; lia].
    apply Z.log2_lt_pow2; [lia |].
    pose proof (Z.log2_spec d Hd) as [_ Hd2].
    replace (Z.log2 d + 54) with (Z.succ (Z.log2 d) + 53) by lia.
    rewrite Z.pow_add_r by (pose proof (Z.log2_nonneg d); lia).
    nia. }
  assert (Hfl : fl <= 52).
  { unfold fl. destruct (Z.eq_dec l 53) as [E | E].
    - unfold pow2_le_ratio. rewrite E. cbn [Z.leb Z.compare].
      replace (d * 2 ^ 53 <=? n) with false by (symmetry; apply Z.leb_gt; lia).
      lia.
    - destruct (pow2_le_ratio l n d); lia. }
  exists (Z.max (fl - 52) (-1074)).
  assert (He : -1074 <= Z.max (fl - 52) (-1074) <= 0) by lia.
  split; [exact He |].
  set (e := Z.max (fl - 52) (-1074)) in *.
  replace (971 <? e) with false by (symmetry; apply Z.ltb_ge; lia).
  replace (e =? 971) with false by (symmetry; apply Z.eqb_neq; lia).
  reflexivity.
Qed.

(** X9. A token of digits only, of value below [2^53], is converted to that
    value exactly. *)
Theorem int_float_integer (x : string) :
  x <> "" -> all_chars is_digit x = true -> digits_value 0 x < 2 ^ 53 ->
  int_float x = Ok (digits_value 0 x).
Proof.
  intros Hne Hx Hlt. unfold int_float. rewrite py_float_integer by assumption.
  cbn [bind]. set (n := digits_value 0 x) in *.
  assert (Hn : 0 <= n) by (apply digits_value_nonneg; [lia | assumption]).
  destruct (Z.eq_dec n 0) as [-> | Hn0]; [reflexivity |].
  destruct (float_of_ratio_small n 1) as (e & He & ->); try lia.
  cbn [py_int]. f_equal. destruct (0 <=? e) eqn:E.
  - apply Z.leb_le in E. assert (e = 0) by lia. subst e.
    cbn. rewrite round_half_even_one. lia.
  - rewrite round_half_even_one. apply Z.div_mul.
    apply Z.pow_nonzero; lia.
Qed.

Lemma int_float_integer_witness : int_float "255" = Ok 255.
Proof.
  apply (int_float_integer "255"); [discriminate | reflexivity | reflexivity].
Defined.

Lemma round_half_even_near (num den : Z) :
  0 < den -> 2 * Z.abs (round_half_even num den * den - num) <= den.
Proof.
  intros Hd. unfold round_half_even. cbv zeta.
  pose proof (Z.div_mod num den ltac:(lia)) as E.
  pose proof (Z.mod_pos_bound num den Hd) as B.
  destruct (2 * (num mod den) <? den) eqn:A1;
    [apply Z.ltb_lt in A1; nia |].
  apply Z.ltb_ge in A1.
  destruct (den <? 2 * (num mod den)) eqn:A2;
    [apply Z.ltb_lt in A2; nia |].
  apply Z.ltb_ge in A2. destruct (Z.even (num / den)); nia.
Qed.

(** The float of a ratio below [2^53]: the ratio scaled by a power of two,
    rounded to the nearest integer. *)
Lemma float_of_ratio_scaled (n d : Z) :
  0 <= n -> 0 < d -> n < d * 2 ^ 53 ->
  exists e,
    -1074 <= e <= 0 /\
    float_of_ratio n d = Finite (round_half_even (n * 2 ^ (- e)) d) e.
Proof.
  intros Hn Hd Hlt. destruct (Z.eq_dec n 0) as [-> | Hn0].
  - exists 0. split; [lia |]. change (float_of_ratio 0 d) with (Finite 0 0).
    change (0 * 2 ^ (- 0)) with 0. unfold round_half_even. cbv zeta.
    rewrite Zdiv_0_l, Zmod_0_l.
    destruct (2 * 0 <? d) eqn:A; [reflexivity |]. apply Z.ltb_ge in A. lia.
  - destruct (float_of_ratio_small n d) as (e & He & ->); try lia.
    exists e. split; [assumption |]. destruct (0 <=? e) eqn:E; [| reflexivity].
    apply Z.leb_le in E. assert (e = 0) by lia. subst e.
    change (2 ^ (- 0)) with 1. change (2 ^ 0) with 1.
    now rewrite !Z.mul_1_r.
Qed.

Lemma float_value_scaled (m e : Z) :
  e <= 0 -> float_value m e = (IZR m / IZR (2 ^ (- e)))%R.
Proof.
  intros He. unfold float_value. destruct (0 <=? e) eqn:E; [| reflexivity].
  apply Z.leb_le in E. assert (e = 0) by lia. subst e.
  change (2 ^ (- 0)) with 1. change (2 ^ 0) with 1.
  rewrite Z.mul_1_r. unfold Rdiv. now rewrite Rinv_1, Rmult_1_r.
Qed.

Lemma py_int_scaled (m e : Z) :
  e <= 0 -> py_int (Finite m e) = Ok (m / 2 ^ (- e)).
Proof.
  intros He. cbn [py_int]. destruct (0 <=? e) eqn:E; [| reflexivity].
  apply Z.leb_le in E. assert (e = 0) by lia. subst e.
  change (2 ^ (- 0)) with 1. change (2 ^ 0) with 1.
  now rewrite Z.mul_1_r, Z.div_1_r.
Qed.

(** Half a step of the grid, from integers to real numbers. *)
Lemma real_near (m n k d : Z) :
  0 < k -> 0 < d -> 2 * Z.abs (m * d - n * k) <= d ->
  (Rabs (IZR m / IZR k - IZR n / IZR d) <= IZR 1 / IZR k / 2)%R.
Proof.
  intros Hk Hd H.
  assert (Rk : (0 < IZR k)%R) by (now apply IZR_lt).
  assert (Rd : (0 < IZR d)%R) by (now apply IZR_lt).
  assert (Nk : IZR k <> 0%R) by (now apply Rgt_not_eq).
  assert (Nd : IZR d <> 0%R) by (now apply Rgt_not_eq).
  assert (P : (0 < 2 * IZR k * IZR d)%R).
  { apply Rmult_lt_0_compat; [| assumption].
    apply Rmult_lt_0_compat; [| assumption]. apply IZR_lt. lia. }
  assert (E : ((IZR m / IZR k - IZR n / IZR d) * (2 * IZR k * IZR d) =
               IZR (2 * (m * d - n * k)))%R).
  { rewrite mult_IZR, minus_IZR, !mult_IZR. field. split; assumption. }
  apply Rabs_le. split.
  - apply (Rmult_le_reg_r (2 * IZR k * IZR d)); [assumption |]. rewrite E.
    replace (- (IZR 1 / IZR k / 2) * (2 * IZR k * IZR d))%R with (IZR (- d))
      by (rewrite opp_IZR; field; assumption).
    apply IZR_le. lia.
  - apply (Rmult_le_reg_r (2 * IZR k * IZR d)); [assumption |]. rewrite E.
    replace (IZR 1 / IZR k / 2 * (2 * IZR k * IZR d))%R with (IZR d)
      by (field; assumption).
    apply IZR_le. lia.
Qed.

(** X10. A token with a decimal point, of exact value [q] below [2^53]: its
    float is within half a step [2^e] of [q] and between the integers around
    [q]; [int] cuts the fraction off the float. So the result is the integer
    part of [q], or one more exactly when the float is that next integer. *)
Theorem int_float_decimal (ip fp : string) :
  ip <> "" -> all_chars is_digit ip = true -> all_chars is_digit fp = true ->
  digits_value 0 (ip ++ fp) < 10 ^ Z.of_nat (String.length fp) * 2 ^ 53 ->
  let n := digits_value 0 (ip ++ fp) in
  let d := 10 ^ Z.of_nat (String.length fp) in
  exists m e v,
    py_float (ip ++ String "." fp) = Ok (Finite m e) /\
    int_float (ip ++ String "." fp) = Ok v /\
    (Rabs (float_value m e - IZR n / IZR d) <= float_value 1 e / 2)%R /\
    (IZR (n / d) <= float_value m e <= IZR (n / d) + 1)%R /\
    (IZR v <= float_value m e < IZR v + 1)%R /\
    (v = n / d \/ v = n / d + 1) /\
    (v = n / d + 1 <-> float_value m e = (IZR (n / d) + 1)%R).
Proof.
  intros Hne Hip Hfp Hlt n d. fold n d in Hlt.
  assert (Hn : 0 <= n).
  { apply digits_value_nonneg; [lia |]. now rewrite all_chars_append, Hip, Hfp. }
  assert (Hd : 0 < d) by (apply Z.pow_pos_nonneg; lia).
  destruct (float_of_ratio_scaled n d Hn Hd Hlt) as (e & He & F).
  set (k := 2 ^ (- e)) in *. set (m := round_half_even (n * k) d) in *.
  assert (Hk : 0 < k) by (apply Z.pow_pos_nonneg; lia).
  assert (Pf : py_float (ip ++ String "." fp) = Ok (Finite m e)).
  { rewrite py_float_decimal by assumption. fold n d. now rewrite F. }
  assert (Pi : int_float (ip ++ String "." fp) = Ok (m / k)).
  { unfold int_float. rewrite Pf. cbn [bind]. apply py_int_scaled. lia. }
  pose proof (round_half_even_near (n * k) d Hd) as Near. fold m in Near.
  pose proof (round_half_even_range (n * k) d Hd) as [Lo Hi]. fold m in Lo, Hi.
  assert (B1 : n / d * k <= m).
  { apply Z.le_trans with (n * k / d); [| assumption].
    apply Z.div_le_lower_bound; [assumption |].
    pose proof (Z.mul_div_le n d Hd). nia. }
  assert (B2 : m <= (n / d + 1) * k).
  { assert (n * k / d < (n / d + 1) * k); [| lia].
    apply Z.div_lt_upper_bound; [assumption |].
    pose proof (Z.mul_succ_div_gt n d Hd). nia. }
  assert (V : (m = (n / d + 1) * k /\ m / k = n / d + 1) \/
              (m < (n / d + 1) * k /\ m / k = n / d)).
  { destruct (Z.eq_dec m ((n / d + 1) * k)) as [E | E].
    - left. split; [assumption |]. rewrite E. apply Z.div_mul. lia.
    - right. split; [lia |].
      apply Z.le_antisymm.
      + assert (m / k < n / d + 1); [| lia].
        apply Z.div_lt_upper_bound; lia.
      + apply Z.div_le_lower_bound; lia. }
  exists m, e, (m / k). rewrite !float_value_scaled by lia. fold k.
  split; [assumption |]. split; [assumption |]. split.
  { apply real_near; assumption. }
  split.
  { split; [now apply IZR_div_le |].
    rewrite <- plus_IZR. now apply IZR_div_ge. }
  split.
  { pose proof (py_int_truncation m e (m / k)) as T.
    cbn [truncation_of] in T. rewrite float_value_scaled in T by lia.
    apply T. apply py_int_scaled. lia. }
  split; [destruct V as [[_ ->] | [_ ->]]; auto |].
  rewrite <- plus_IZR. split.
  - intros E. destruct V as [[Em _] | [_ Ev]]; [| lia].
    apply Rle_antisym; [now apply IZR_div_ge | apply IZR_div_le; lia].
  - intros E. destruct V as [[_ Ev] | [Lt _]]; [assumption |].
    exfalso. assert (X : (IZR (n / d + 1) <= IZR m / IZR k)%R)
      by (rewrite E; apply Rle_refl).
    apply IZR_div_le in X; lia.
Qed.

Lemma int_float_decimal_witness :
  (exists m e,
      py_float ("0" ++ String "." "99999999999999999999") = Ok (Finite m e) /\
      int_float ("0" ++ String "." "99999999999999999999") = Ok 1 /\
      float_value m e = (IZR 0 + 1)%R) /\
  (exists m e,
      py_float ("2" ++ String "." "9") = Ok (Finite m e) /\
      int_float ("2" ++ String "." "9") = Ok 2 /\
      (IZR 2 <= float_value m e < IZR 2 + 1)%R).
Proof.
  split.
  - destruct (int_float_decimal "0" "99999999999999999999")
      as (m & e & v & Pf & Pi & _ & _ & _ & _ & Iff);
      [discriminate | reflexivity | reflexivity | reflexivity |].
    assert (Hv : v = 1) by (vm_compute in Pi; congruence).
    subst v. exists m, e. split; [exact Pf |]. split; [exact Pi |].
    apply (proj1 Iff). reflexivity.
  - destruct (int_float_decimal "2" "9")
      as (m & e & v & Pf & Pi & _ & _ & Tr & _);
      [discriminate | reflexivity | reflexivity | reflexivity |].
    assert (Hv : v = 2) by (vm_compute in Pi; congruence).
    subst v. exists m, e. split; [exact Pf |]. split; [exact Pi |]. exact Tr.
Defined.

Lemma parse_color_code_check (s : string) :
  startswith_hash s && (String.length s =? 7)%nat = true ->
  parse_color_code (Str s) = Ok s.
Proof. intros H. unfold parse_color_code. now rewrite H. Qed.

Lemma parse_color_code_canonical (s : string) :
  is_canonical s = true -> parse_color_code (Str s) = Ok s.
Proof.
  intros C. apply parse_color_code_check.
  destruct s as [|c s]; [discriminate C |].
  cbn [is_canonical] in C. apply andb_true_iff in C as [C _].
  apply andb_true_iff in C as [C L]. cbn [startswith_hash String.length].
  rewrite C. apply Nat.eqb_eq in L. rewrite L. reflexivity.
Qed.

Lemma parse_color_code_starts_hash (v : pyobj) (out : string) :
  parse_color_code v = Ok out -> startswith_hash out = true.
Proof.
  intros H. apply parse_color_code_ok in H
    as [(s & _ & [_ [r ->]] & ->) |
        (s & x1 & x2 & x3 & r & g & b & _ & _ & _ & _ & _ & _ & _ & _ & ->)];
    reflexivity.
Qed.

(** X11. Parsing a result of [parse_color_code] again gives it back when it
    has seven characters, and raises the [ValueError] of an invalid colour
    when it is longer, which an unclamped channel above 255 causes. *)
Theorem parse_color_code_again (v : pyobj) (out : string) :
  parse_color_code v = Ok out ->
  (String.length out = 7%nat -> parse_color_code (Str out) = Ok out) /\
  (String.length out <> 7%nat ->
   parse_color_code (Str out) =
     Raise (ValueError (invalid_color_prefix ++ out))).
Proof.
  intros H. pose proof (parse_color_code_starts_hash v out H) as Hh.
  split; intros L.
  - apply parse_color_code_check. rewrite Hh, L. reflexivity.
  - unfold parse_color_code. rewrite Hh.
    replace (String.length out =? 7)%nat with false
      by (symmetry; now apply Nat.eqb_neq).
    destruct out as [|c out]; [discriminate Hh |].
    cbn in Hh. apply Ascii.eqb_eq in Hh. subst c. reflexivity.
Qed.

Lemma parse_color_code_again_witness :
  parse_color_code (Str "#1000000") =
    Raise (ValueError (invalid_color_prefix ++ "#1000000")).
Proof.
  apply (proj2 (parse_color_code_again (Str "rgb(256, 0, 0)") "#1000000"
                  eq_refl)).
  discriminate.
Defined.

(** X12. Formatting three bytes and decoding the result gives the bytes
    back, and the string formatted is a canonical colour. *)
Theorem format_then_decode (r g b : Z) :
  0 <= r <= 255 -> 0 <= g <= 255 -> 0 <= b <= 255 ->
  hex_channels (format_hex r g b) = Ok (r, g, b) /\
  is_canonical (format_hex r g b) = true /\
  parse_color_code (Str (format_hex r g b)) = Ok (format_hex r g b).
Proof.
  intros Hr Hg Hb.
  pose proof (format_hex_canonical r g b Hr Hg Hb) as C.
  repeat split; [now apply hex_channels_format_hex | assumption |].
  now apply parse_color_code_canonical.
Qed.

Lemma format_then_decode_witness :
  hex_channels (format_hex 26 43 60) = Ok (26, 43, 60) /\
  is_canonical (format_hex 26 43 60) = true /\
  parse_color_code (Str (format_hex 26 43 60)) = Ok (format_hex 26 43 60).
Proof. apply format_then_decode; lia. Defined.

(** X13. Decoding a canonical colour gives three bytes, and formatting them
    gives the colour back. *)
Theorem decode_then_format (s : string) :
  is_canonical s = true ->
  exists r g b,
    hex_channels s = Ok (r, g, b) /\
    0 <= r <= 255 /\ 0 <= g <= 255 /\ 0 <= b <= 255 /\
    format_hex r g b = s.
Proof.
  intros H.
  destruct (canonical_format_hex s H) as (r & g & b & Hr & Hg & Hb & ->).
  exists r, g, b. repeat split; try lia. now apply hex_channels_format_hex.
Qed.

Lemma decode_then_format_witness :
  exists r g b,
    hex_channels "#1a2b3c" = Ok (r, g, b) /\
    0 <= r <= 255 /\ 0 <= g <= 255 /\ 0 <= b <= 255 /\
    format_hex r g b = "#1a2b3c".
Proof. exact (decode_then_format "#1a2b3c" eq_refl). Defined.

(* ================================================================== *)
(** * From the palette to [process] *)
(* ================================================================== *)

(** An entry of the palette is the formatted colour, three bytes, of a
    sampled pixel. *)
Lemma palette_entry_pixel (resize : Image -> Image)
  (argsort : list Z -> list nat) (image : Image) (s : string) :
  argsort_spec argsort -> uint8_image (resize image) = true ->
  In s (get_colors resize argsort image) ->
  exists p,
    In p (sampled (resize image)) /\
    s = format_hex (red p) (green p) (blue p) /\
    0 <= red p <= 255 /\ 0 <= green p <= 255 /\ 0 <= blue p <= 255.
Proof.
  intros Hspec Himg Hs.
  destruct (top_colors_table argsort (resize image) Hspec)
    as (unique & _ & K & _ & _ & Hin & _).
  unfold get_colors in Hs. apply in_map_iff in Hs as (c & <- & Hc).
  destruct (proj1 (K c) (Hin c Hc)) as (p & Hp & <-).
  exists p. split; [assumption |]. split; [reflexivity |].
  exact (sampled_rgb_bytes _ _ Himg Hp).
Qed.

(** X14. An entry of the palette is accepted by [parse_color_code] as it is,
    and decodes to the colour of a sampled pixel. *)
Theorem palette_entry_decodes (resize : Image -> Image)
  (argsort : list Z -> list nat) (image : Image) (s : string) :
  argsort_spec argsort -> uint8_image (resize image) = true ->
  In s (get_colors resize argsort image) ->
  parse_color_code (Str s) = Ok s /\
  exists p,
    In p (sampled (resize image)) /\
    s = format_hex (red p) (green p) (blue p) /\
    hex_channels s = Ok (pixel_rgb p).
Proof.
  intros Hspec Himg Hs.
  destruct (palette_entry_pixel resize argsort image s Hspec Himg Hs)
    as (p & Hp & -> & Hr & Hg & Hb).
  split.
  - apply parse_color_code_canonical. now apply format_hex_canonical.
  - exists p. repeat split; [assumption |].
    now apply hex_channels_format_hex.
Qed.

Lemma palette_entry_decodes_witness :
  parse_color_code (Str "#fa0505") = Ok "#fa0505" /\
  exists p,
    In p (sampled scenario_image) /\
    "#fa0505" = format_hex (red p) (green p) (blue p) /\
    hex_channels "#fa0505" = Ok (pixel_rgb p).
Proof.
  apply (palette_entry_decodes (fun image => image) stable_argsort
           scenario_image "#fa0505" stable_argsort_spec eq_refl).
  right. left. reflexivity.
Defined.

(** X15. With a colour selected from the palette and a canonical new colour,
    [process] shows no error unless writing the file fails: it returns the
    image recoloured around the colour of a sampled pixel, the file written
    and a hidden, empty error box. *)
Theorem process_palette_selection (resize : Image -> Image)
  (argsort : list Z -> list nat) (save : Image -> string + string)
  (describe : exn -> string) (sample image : Image) (s color_to : string)
  (tolerance : PrimFloat.float) :
  argsort_spec argsort -> uint8_image (resize sample) = true ->
  In s (get_colors resize argsort sample) -> is_canonical color_to = true ->
  exists p c2 out,
    In p (sampled (resize sample)) /\
    s = format_hex (red p) (green p) (blue p) /\
    hex_channels color_to = Ok c2 /\
    out = grid_map (recolor tolerance (pixel_rgb p) c2) image /\
    (forall tmp_path, save out = inr tmp_path ->
       process save describe (Some image) (Str s) (Str color_to) tolerance =
       (Some out,
        Some {| file_value := tmp_path; file_visible := true |},
        {| textbox_value := ""; textbox_visible := false |})) /\
    (forall msg, save out = inl msg ->
       process save describe (Some image) (Str s) (Str color_to) tolerance =
       (None, None,
        {| textbox_value := error_prefix ++ msg; textbox_visible := true |})).
Proof.
  intros Hspec Himg Hs Hto.
  destruct (palette_entry_pixel resize argsort sample s Hspec Himg Hs)
    as (p & Hp & Es & Hr & Hg & Hb).
  assert (Ps : parse_color_code (Str s) = Ok s).
  { rewrite Es. apply parse_color_code_canonical.
    now apply format_hex_canonical. }
  assert (H1 : hex_channels s = Ok (pixel_rgb p)).
  { rewrite Es. now apply hex_channels_format_hex. }
  destruct (hex_channels_canonical _ Hto) as (r2 & g2 & b2 & H2 & Hr2 & Hg2 & Hb2).
  pose proof (parse_color_code_canonical _ Hto) as Pt.
  assert (R : replace_color_with_tolerance image s color_to tolerance =
              Ok (grid_map (recolor tolerance (pixel_rgb p) (r2, g2, b2)) image)).
  { apply replace_as_recolor; try assumption; now apply uint8_bounds. }
  exists p, (r2, g2, b2),
    (grid_map (recolor tolerance (pixel_rgb p) (r2, g2, b2)) image).
  repeat split; try assumption.
  - intros tmp_path Hsave. unfold process, process_try.
    rewrite Ps, Pt, R, Hsave. reflexivity.
  - intros msg Hsave. unfold process, process_try.
    rewrite Ps, Pt, R, Hsave. reflexivity.
Qed.

Lemma process_palette_selection_witness :
  exists out,
    process (save_as "out.png") (fun _ => "") (Some scenario_image)
      (Str "#ff0000") (Str "#0000ff") (float_of_int 10) =
    (Some out,
     Some {| file_value := "out.png"; file_visible := true |},
     {| textbox_value := ""; textbox_visible := false |}).
Proof.
  destruct (process_palette_selection (fun image => image) stable_argsort
              (save_as "out.png") (fun _ => "") scenario_image scenario_image
              "#ff0000" "#0000ff" (float_of_int 10) stable_argsort_spec
              eq_refl (or_introl eq_refl) eq_refl)
    as (p & c2 & out & _ & _ & _ & _ & Hok & _).
  exists out. apply Hok. reflexivity.
Defined.

(** X16. A selected colour that is in neither grammar makes [process] return
    no image and no file, and show the message of [parse_color_code] with
    the string itself, whatever the image and the new colour are. *)
Theorem process_invalid_selection (save : Image -> string + string)
  (describe : exn -> string) (image : option Image) (s : string)
  (color_to : pyobj) (tolerance : PrimFloat.float) :
  ~ is_hash7 s -> ~ matches_rgb_pattern s ->
  process save describe image (Str s) color_to tolerance =
  (None, None,
   {| textbox_value := error_prefix ++ invalid_color_prefix ++ s;
      textbox_visible := true |}).
Proof.
  intros Hh Hm. unfold process, process_try, parse_color_code.
  destruct (startswith_hash s && (String.length s =? 7)%nat) eqn:E.
  - exfalso. apply Hh. now apply hash7_check.
  - destruct (re_match_rgb s) as [[[x1 x2] x3]|] eqn:M; [| reflexivity].
    exfalso. apply Hm. apply re_match_rgb_matches. eauto.
Qed.

Lemma process_invalid_selection_witness :
  process (save_as "out.png") (fun _ => "") None (Str "not-a-color") NoneObj
    (float_of_int 10) =
  (None, None,
   {| textbox_value := error_prefix ++ invalid_color_prefix ++ "not-a-color";
      textbox_visible := true |}).
Proof.
  apply process_invalid_selection.
  - intros [H _]. discriminate H.
  - intros H. apply re_match_rgb_matches in H as (x1 & x2 & x3 & H).
    discriminate H.
Defined.

(* ================================================================== *)
(** * The palette as a function of the colour counts *)
(* ================================================================== *)

Lemma count_of_perm (c : rgb) (rows1 rows2 : list rgb) :
  Permutation rows1 rows2 -> count_of c rows1 = count_of c rows2.
Proof.
  intros P. induction P as [| x l l' _ IH | x y l | l l' l'' _ IH1 _ IH2].
  - reflexivity.
  - rewrite !count_of_cons, IH. reflexivity.
  - rewrite !count_of_cons. lia.
  - now rewrite IH1.
Qed.

Lemma table_entry_iff (rows : list rgb) (d : rgb) (n : Z) :
  In (d, n) (fold_right count_insert [] rows) <->
  In d rows /\ n = count_of d rows.
Proof.
  destruct (unique_table_spec rows) as (_ & K & C). cbv zeta in *. split.
  - intros H. split; [| now apply C].
    apply K. apply in_map_iff. now exists (d, n).
  - intros [H ->]. apply K in H. apply in_map_iff in H as ([d' n'] & E & H).
    cbn in E. subst d'. now rewrite <- (C d n' H).
Qed.

(** Two tables in increasing order with the same entries are equal. *)
Lemma table_sorted_ext (t1 t2 : list (rgb * Z)) :
  table_sorted t1 -> table_sorted t2 ->
  (forall x, In x t1 <-> In x t2) -> t1 = t2.
Proof.
  revert t2; induction t1 as [|a t1 IH]; intros t2 S1 S2 H.
  - destruct t2 as [|b t2]; [reflexivity |].
    exfalso. apply (H b). now left.
  - destruct t2 as [|b t2]; [exfalso; apply (H a); now left |].
    pose proof (StronglySorted_inv S1) as [S1' F1].
    pose proof (StronglySorted_inv S2) as [S2' F2].
    rewrite Forall_forall in F1, F2.
    assert (E : a = b).
    { destruct (proj1 (H a) (or_introl eq_refl)) as [Eb | Ha]; [now symmetry |].
      destruct (proj2 (H b) (or_introl eq_refl)) as [Ea | Hb]; [assumption |].
      exfalso. apply (rgb_lt_irrefl (fst a)).
      eapply rgb_lt_trans; [apply (F1 b Hb) | apply (F2 a Ha)]. }
    subst b. f_equal. apply IH; try assumption.
    intros x. split; intros Hx.
    + destruct (proj1 (H x) (or_intror Hx)) as [<- | Hx']; [| assumption].
      exfalso. apply (rgb_lt_irrefl (fst a)). exact (F1 a Hx).
    + destruct (proj2 (H x) (or_intror Hx)) as [<- | Hx']; [| assumption].
      exfalso. apply (rgb_lt_irrefl (fst a)). exact (F2 a Hx).
Qed.

Lemma np_unique_perm (rows1 rows2 : list rgb) :
  Permutation rows1 rows2 -> np_unique rows1 = np_unique rows2.
Proof.
  intros P. unfold np_unique. f_equal.
  destruct (unique_table_spec rows1) as (S1 & _).
  destruct (unique_table_spec rows2) as (S2 & _).
  apply table_sorted_ext; try assumption.
  intros [d n]. rewrite !table_entry_iff, (count_of_perm d _ _ P).
  split; intros [H E]; (split; [| assumption]).
  - exact (Permutation_in _ P H).
  - exact (Permutation_in _ (Permutation_sym P) H).
Qed.

(** X17. The palette depends only on how often each colour occurs among the
    sampled pixels, not on where the pixels are. *)
Theorem get_colors_positions (resize : Image -> Image)
  (argsort : list Z -> list nat) (image1 image2 : Image) :
  Permutation (map pixel_rgb (sampled (resize image1)))
              (map pixel_rgb (sampled (resize image2))) ->
  get_colors resize argsort image1 = get_colors resize argsort image2.
Proof.
  intros P. unfold get_colors. f_equal. rewrite !top_colors_unfold. cbv zeta.
  rewrite (Permutation_length P), (np_unique_perm _ _ P). reflexivity.
Qed.

Lemma get_colors_positions_witness :
  get_colors (fun image => image) stable_argsort scenario_image =
  get_colors (fun image => image) stable_argsort scenario_swapped.
Proof.
  apply get_colors_positions. apply perm_swap.
Defined.

(* ================================================================== *)
(** * What the pattern does not accept *)
(* ================================================================== *)

(** X18. After the first channel the pattern wants a comma at once: when
    anything else follows the number, [parse_color_code] raises its
    [ValueError]; so white space before the comma, a percent sign and the
    notation with spaces for commas are all rejected. *)
Theorem parse_color_code_comma_required (a x1 : string) (c : ascii)
  (rest : string) :
  a = "" \/ a = "a" ->
  scan_number (x1 ++ String c rest) = Some (x1, String c rest) ->
  c <> ","%char ->
  parse_color_code (Str ("rgb" ++ a ++ "(" ++ x1 ++ String c rest)) =
  Raise (ValueError
           (invalid_color_prefix ++ "rgb" ++ a ++ "(" ++ x1 ++ String c rest)).
Proof.
  intros Ha Hs Hc. unfold parse_color_code.
  replace (startswith_hash ("rgb" ++ a ++ "(" ++ x1 ++ String c rest))
    with false by reflexivity.
  cbn [andb]. rewrite re_match_rgb_head by assumption.
  rewrite Hs. cbn [obind snd expect].
  destruct (Ascii.eqb "," c) eqn:E; [| reflexivity].
  apply Ascii.eqb_eq in E. congruence.
Qed.

Lemma parse_color_code_comma_required_witness :
  parse_color_code (Str ("rgb" ++ "" ++ "(" ++ "26" ++ String " " "43 60)")) =
  Raise (ValueError
           (invalid_color_prefix ++
            "rgb" ++ "" ++ "(" ++ "26" ++ String " " "43 60)")).
Proof.
  apply parse_color_code_comma_required;
    [now left | reflexivity | discriminate].
Defined.

(* ================================================================== *)
(** * What [hex_channels] reads *)
(* ================================================================== *)

Lemma substring_prefix (s : string) (i m n : nat) :
  (i + m <= n)%nat -> substring i m (substring 0 n s) = substring i m s.
Proof.
  revert i m n; induction s as [|c s IH]; intros i m n H.
  - destruct n; reflexivity.
  - destruct n as [|n].
    + assert (i = 0%nat) by lia. assert (m = 0%nat) by lia. subst. reflexivity.
    + cbn [substring]. destruct i as [|i].
      * destruct m as [|m]; [reflexivity |]. cbn [substring].
        f_equal. apply (IH 0%nat). lia.
      * cbn [substring]. apply IH. lia.
Qed.

(** X19. Only the characters at positions 1 to 6 of a colour are decoded:
    two strings with the same first seven characters have the same
    channels, so what an over-long colour carries after them is ignored. *)
Theorem hex_channels_first_seven (s t : string) :
  substring 0 7 s = substring 0 7 t -> hex_channels s = hex_channels t.
Proof.
  intros H. unfold hex_channels, slice.
  rewrite <- (substring_prefix s 1 (3 - 1) 7), <- (substring_prefix s 3 (5 - 3) 7),
          <- (substring_prefix s 5 (7 - 5) 7) by (cbn; lia).
  rewrite H.
  rewrite !substring_prefix by (cbn; lia). reflexivity.
Qed.

Lemma hex_channels_first_seven_witness :
  hex_channels "#1000000" = hex_channels "#100000".
Proof. apply hex_channels_first_seven. reflexivity. Defined.

Lemma hex_val_range (c : ascii) (a : Z) : hex_val c = Some a -> 0 <= a < 16.
Proof.
  unfold hex_val, in_range. intros H.
  repeat match type of H with
         | (if ?b then _ else _) = _ => destruct b eqn:?E
         end; try discriminate H; injection H as <-;
    repeat match goal with
           | X : (_ && _) = true |- _ => apply andb_true_iff in X as [? ?]
           | X : (_ <=? _) = true |- _ => apply Z.leb_le in X
           end; lia.
Qed.

Lemma hex_val_table (c : ascii) (a : Z) :
  hex_val c = Some a ->
  In (c, a)
     [("0"%char, 0); ("1"%char, 1); ("2"%char, 2); ("3"%char, 3);
      ("4"%char, 4); ("5"%char, 5); ("6"%char, 6); ("7"%char, 7);
      ("8"%char, 8); ("9"%char, 9);
      ("a"%char, 10); ("b"%char, 11); ("c"%char, 12); ("d"%char, 13);
      ("e"%char, 14); ("f"%char, 15);
      ("A"%char, 10); ("B"%char, 11); ("C"%char, 12); ("D"%char, 13);
      ("E"%char, 14); ("F"%char, 15)].
Proof.
  intros H.
  destruct c as [[] [] [] [] [] [] [] []]; try discriminate H;
    injection H as <-; cbn; tauto.
Qed.

(** [int(s, 16)] on two hexadecimal digits of either case. *)
Lemma int16_hex_digits (c d : ascii) (a b : Z) :
  hex_val c = Some a -> hex_val d = Some b ->
  int16 (String c (String d "")) = Ok (16 * a + b).
Proof.
  intros Ha Hb. apply hex_val_table in Ha, Hb. cbn [In] in Ha, Hb.
  repeat (destruct Ha as [Ha | Ha]; [injection Ha as <- <- |]);
    try contradiction;
    repeat (destruct Hb as [Hb | Hb]; [injection Hb as <- <- |]);
    try contradiction; reflexivity.
Qed.

(** X20. Hexadecimal digits are decoded in either case: a colour whose six
    characters after the first are hexadecimal digits, upper or lower,
    decodes to three bytes. *)
Theorem hex_channels_either_case (c0 c1 c2 c3 c4 c5 c6 : ascii)
  (v1 v2 v3 v4 v5 v6 : Z) :
  hex_val c1 = Some v1 -> hex_val c2 = Some v2 -> hex_val c3 = Some v3 ->
  hex_val c4 = Some v4 -> hex_val c5 = Some v5 -> hex_val c6 = Some v6 ->
  hex_channels
    (String c0 (String c1 (String c2 (String c3 (String c4
      (String c5 (String c6 ""))))))) =
    Ok (16 * v1 + v2, 16 * v3 + v4, 16 * v5 + v6) /\
  0 <= 16 * v1 + v2 <= 255 /\ 0 <= 16 * v3 + v4 <= 255 /\
  0 <= 16 * v5 + v6 <= 255.
Proof.
  intros H1 H2 H3 H4 H5 H6. split.
  - unfold hex_channels, slice. cbn [substring Nat.sub].
    rewrite (int16_hex_digits _ _ _ _ H1 H2), (int16_hex_digits _ _ _ _ H3 H4),
            (int16_hex_digits _ _ _ _ H5 H6). reflexivity.
  - apply hex_val_range in H1, H2, H3, H4, H5, H6. lia.
Qed.

Lemma hex_channels_either_case_witness :
  hex_channels "#FF00aB" = Ok (16 * 15 + 15, 16 * 0 + 0, 16 * 10 + 11) /\
  0 <= 16 * 15 + 15 <= 255 /\ 0 <= 16 * 0 + 0 <= 255 /\
  0 <= 16 * 10 + 11 <= 255.
Proof.
  apply (hex_channels_either_case "#" "F" "F" "0" "0" "a" "B"); reflexivity.
Defined.
